(** * Yunfeng Logistics DSS: the dispatch simulation of [runSimulation]

    A shallow embedding of the simulation engine of [src/index.tsx]
    (and of its twin [src/src/components/YunfengDashboard.tsx], which differs
    only in the map constants), and the verification of its specification.

    Modelling conventions.
    - JavaScript numbers that the program only ever uses as integers
      (indices, counters, [distance], [fleetSize], [numOrders]) are [Z];
      the other numbers (coordinates, costs, CO2) are exact rationals [Q],
      compared with [==].  Rounding of IEEE doubles is not modelled.
    - [Math.random] is an injected source of draws read through a cursor.
    - Order objects live in a store; arrays of orders hold addresses, so
      that the assignment [order.status = ...] is an update of the one
      shared object. *)

From Stdlib Require Import ZArith QArith Qround Lqa Lia.
From Stdlib Require Import Floats.
From stdpp Require Import base list sorting strings pretty.

Local Open Scope Z_scope.

(** ** Constants from Zhen et al. (2021) *)

Definition COST_OWNED_FIXED : Q := 300.
Definition COST_OWNED_PER_KM : Q := 13.5.
Definition COST_3RD_PARTY_FIXED : Q := 2000.
Definition COST_3RD_PARTY_PER_KM : Q := 14.0.
Definition CO2_PER_KM : Q := 0.27.

(** ** Map constants

    The two source files share the engine and differ in the map geometry
    and in the literals of the distance formula; these are the fields. *)

Record Geometry := {
  MAP_WIDTH : Q;
  MAP_HEIGHT : Q;
  PORT_X : Q;
  PORT_Y : Q;
  X_OFFSET : Q;       (* x = random * (MAP_WIDTH * 0.7) + X_OFFSET *)
  Y_MARGIN : Q;       (* y = random * (MAP_HEIGHT - Y_MARGIN) + Y_OFFSET *)
  Y_OFFSET : Q;
  KM_SCALE : Q;       (* distKm = floor(distPx * KM_SCALE) + KM_OFFSET *)
  KM_OFFSET : Z
}.

(** [src/index.tsx] *)
Definition index_tsx : Geometry := {|
  MAP_WIDTH := 800;
  MAP_HEIGHT := 500;
  PORT_X := 800 * 0.8;
  PORT_Y := 500 * 0.5;
  X_OFFSET := 20;
  Y_MARGIN := 40;
  Y_OFFSET := 20;
  KM_SCALE := 0.5;
  KM_OFFSET := 50
|}.

(** [src/src/components/YunfengDashboard.tsx] *)
Definition YunfengDashboard_tsx : Geometry := {|
  MAP_WIDTH := 800;
  MAP_HEIGHT := 400;
  PORT_X := 800 * 0.85;
  PORT_Y := 400 * 0.5;
  X_OFFSET := 40;
  Y_MARGIN := 60;
  Y_OFFSET := 30;
  KM_SCALE := 0.4;
  KM_OFFSET := 40
|}.

(** ** Types *)

Inductive OrderType := DoorToDoor | Warehouse.
Inductive ContainerSize := GP20 | GP40.
Inductive Urgency := Normal | Urgent.
Inductive Status := Pending | Assigned | Outsourced.

Module Order.
Record t := mk {
  id : string;
  type : OrderType;
  size : ContainerSize;
  urgency : Urgency;
  distance : Z;
  x : Q;
  y : Q;
  status : Status
}.

(** [order.status = s] on the object itself *)
Definition setStatus (s : Status) (o : t) : t :=
  mk (id o) (type o) (size o) (urgency o) (distance o) (x o) (y o) s.
End Order.

(** The entries pushed on [scheduleLog]. *)
Module Dispatch.
Record t := mk {
  orderId : string;
  vehicleId : string;
  method : string;
  cost : Q;
  distance : Z
}.
End Dispatch.

Record SimulationResult := {
  schedule : list Dispatch.t;
  totalCost : Q;
  ownedUsage : Z;
  outsourcedUsage : Z;
  totalKm : Z;
  manualCostEst : Q;
  savings : Q;
  co2 : Q
}.

#[global] Instance Urgency_eq_dec : EqDecision Urgency.
Proof. solve_decision. Defined.

#[global] Instance Status_eq_dec : EqDecision Status.
Proof. solve_decision. Defined.

#[global] Instance Order_inhabited : Inhabited Order.t :=
  populate (Order.mk "" Warehouse GP20 Normal 0 0 0 Pending).

(** ** The random source

    [Math.random()] reads the next draw of the source and advances the
    cursor.  A computation that draws is a function of the source and the
    cursor; [x <- m ;; k] sequences two of them. *)

Definition RandomSource := nat -> Q.

Definition Rand (A : Type) : Type := RandomSource -> nat -> A * nat.

Definition ret {A} (a : A) : Rand A := fun _ cur => (a, cur).

Definition bind {A B} (m : Rand A) (k : A -> Rand B) : Rand B :=
  fun src cur => let '(a, cur') := m src cur in k a src cur'.

Definition random : Rand Q := fun src cur => (src cur, S cur).

Notation "x <- m ;; k" := (bind m (fun x => k))
  (at level 100, m at next level, right associativity).

(** [indices.map(f)] for a callback that draws: left to right *)
Fixpoint mapRand {A B} (f : A -> Rand B) (l : list A) : Rand (list B) :=
  match l with
  | [] => ret []
  | a :: l' => b <- f a ;; bs <- mapRand f l' ;; ret (b :: bs)
  end.

(** [a > b] on numbers *)
Definition Qgtb (a b : Q) : bool := negb (Qle_bool a b).

(** ** 1. Generate mock orders *)

(** [Math.floor(Math.sqrt(s) * k)] for [0 <= k], in exact arithmetic: the
    largest integer [m] with [m * m <= s * k * k] (see
    [floorSqrtScaled_spec]).  The program computes it on doubles, whose
    rounding can move the result by one where [sqrt s * k] is within a
    rounding error of an integer. *)
Definition floorSqrtScaled (s k : Q) : Z := Z.sqrt (Qfloor (s * (k * k))).

(** The callback of [.map((_, i) => ...)]: five draws, in the order x, y,
    type, size, urgency.  The coordinates, the distance and the three
    comparisons are taken in exact arithmetic on the draws; on doubles the
    program can round them differently (a coordinate in its last digits,
    the distance by one km, a comparison when the draw is the double
    nearest the threshold).  What is proved of the generated orders uses
    their number, their identifiers, their status and the lower bound
    [KM_OFFSET] of the distance, which rounding does not change. *)
Definition genOrder (geo : Geometry) (i : nat) : Rand Order.t :=
  r1 <- random ;;
  let x := (r1 * (MAP_WIDTH geo * 0.7) + X_OFFSET geo)%Q in
  r2 <- random ;;
  let y := (r2 * (MAP_HEIGHT geo - Y_MARGIN geo) + Y_OFFSET geo)%Q in
  let dx := (x - PORT_X geo)%Q in
  let dy := (y - PORT_Y geo)%Q in
  let distKm := floorSqrtScaled (dx * dx + dy * dy) (KM_SCALE geo) + KM_OFFSET geo in
  r3 <- random ;;
  r4 <- random ;;
  r5 <- random ;;
  ret (Order.mk
         ("ORD-" +:+ pretty (1000 + Z.of_nat i))
         (if Qgtb r3 0.4 then DoorToDoor else Warehouse)
         (if Qgtb r4 0.5 then GP40 else GP20)
         (if Qgtb r5 0.8 then Urgent else Normal)
         distKm
         x
         y
         Pending).

(** [.map((_, i) => ...)] on an array of [n] elements: the callback makes
    the objects of the indices 0 to [n - 1], in this order. *)
Definition createOrders (geo : Geometry) (n : nat) : Rand (list Order.t) :=
  mapRand (genOrder geo) (seq 0 n).

(** What a call can throw. *)
Inductive Thrown := RangeError.

(** The greatest length an array can have. *)
Definition MAX_ARRAY_LENGTH : Z := 2 ^ 32 - 1.

(** [Array.from({ length: numOrders }).map((_, i) => ...)]: the length of
    an array-like is clamped at zero, so a negative [numOrders] gives the
    empty array; [Array.from] then constructs [new Array(length)], which
    throws a [RangeError] (invalid array length) when the length is more
    than [MAX_ARRAY_LENGTH], before any callback has run.  Otherwise the
    result is the list of the objects created, in creation order. *)
Definition generateOrders (geo : Geometry) (numOrders : Z) : Rand (Thrown + list Order.t) :=
  if MAX_ARRAY_LENGTH <? numOrders then ret (inl RangeError)
  else orders <- createOrders geo (Z.to_nat numOrders) ;; ret (inr orders).

(** ** 2. Sort orders (heuristic: urgency, then distance) *)

(** The comparator passed to [sort]. *)
Definition compareOrders (a b : Order.t) : Z :=
  if bool_decide (Order.urgency a = Urgent) && bool_decide (Order.urgency b <> Urgent)
  then -1
  else if bool_decide (Order.urgency a <> Urgent) && bool_decide (Order.urgency b = Urgent)
  then 1
  else Order.distance b - Order.distance a.

(** [Array.prototype.sort] is a stable sort (ECMAScript 2019); with a
    consistent comparator its result is the one stable sorted arrangement
    of the array (see [sort_unique]), computed here by stable insertion:
    [a] goes before the first [b] with [compareFn a b <= 0]. *)
Section Sort.
Context {A : Type} (compareFn : A -> A -> Z).

Fixpoint insertSorted (a : A) (l : list A) : list A :=
  match l with
  | [] => [a]
  | b :: l' => if compareFn a b <=? 0 then a :: l else b :: insertSorted a l'
  end.

Definition sort (l : list A) : list A := foldr insertSorted [] l.
End Sort.

(** Arrays of orders hold addresses into the store of order objects. *)
Abbreviation addr := nat (only parsing).

(** The comparator on two elements of an array of orders. *)
Definition compareAt (h : list Order.t) (a b : addr) : Z :=
  compareOrders (h !!! a) (h !!! b).

(** ** 3. Allocate *)

(** The mutable locals of the allocation loop, and the store. *)
Record AllocState := {
  currentCost : Q;
  ownedCount : Z;
  outsourcedCount : Z;
  kmCount : Z;
  availableTrucks : Z;
  scheduleLog : list Dispatch.t;
  heap : list Order.t
}.

Definition initState (fleetSize : Z) (h : list Order.t) : AllocState := {|
  currentCost := 0;
  ownedCount := 0;
  outsourcedCount := 0;
  kmCount := 0;
  availableTrucks := fleetSize;
  scheduleLog := [];
  heap := h
|}.

(** One call of the callback of [sortedOrders.map]: [order] is the address
    of the order visited. *)
Definition allocStep (s : AllocState) (order : addr) : AllocState :=
  let '(availableTrucks', ownedCount', outsourcedCount', cost, method, assignedVehicle, heap') :=
    if 0 <? availableTrucks s then
      (* Assign Owned *)
      let ownedCount' := ownedCount s + 1 in
      (availableTrucks s - 1,
       ownedCount',
       outsourcedCount s,
       (COST_OWNED_FIXED
        + inject_Z (Order.distance (heap s !!! order)) * COST_OWNED_PER_KM)%Q,
       "Owned"%string,
       "VEH-" +:+ pretty ownedCount',
       alter (Order.setStatus Assigned) order (heap s))
    else
      (* Outsource *)
      (availableTrucks s,
       ownedCount s,
       outsourcedCount s + 1,
       (COST_3RD_PARTY_FIXED
        + inject_Z (Order.distance (heap s !!! order)) * COST_3RD_PARTY_PER_KM)%Q,
       "Outsourced"%string,
       "3RD-PARTY"%string,
       alter (Order.setStatus Outsourced) order (heap s))
  in
  {| currentCost := (currentCost s + cost)%Q;
     ownedCount := ownedCount';
     outsourcedCount := outsourcedCount';
     kmCount := kmCount s + Order.distance (heap' !!! order);
     availableTrucks := availableTrucks';
     scheduleLog :=
       scheduleLog s ++
       [Dispatch.mk (Order.id (heap' !!! order)) assignedVehicle method cost
                    (Order.distance (heap' !!! order))];
     heap := heap' |}.

(** The loop of [sortedOrders.map]: the orders are visited from left to
    right. *)
Definition allocate (s : AllocState) (sortedOrders : list addr) : AllocState :=
  fold_left allocStep sortedOrders s.

(** ** 4. Metrics *)

Definition metrics (s : AllocState) : SimulationResult :=
  let manualEst := (currentCost s * 1.153)%Q in
  let savingVal := (manualEst - currentCost s)%Q in
  {| schedule := scheduleLog s;
     totalCost := currentCost s;
     ownedUsage := ownedCount s;
     outsourcedUsage := outsourcedCount s;
     totalKm := kmCount s;
     manualCostEst := manualEst;
     savings := savingVal;
     co2 := (inject_Z (kmCount s) * CO2_PER_KM)%Q |}.

(** ** The simulation *)

(** The store after step 1, when the generator has returned: the objects
    created by the callback, the object of index [i] at address [i] (see
    [generateOrders_returns]). *)
Definition generated (geo : Geometry) (src : RandomSource) (numOrders : Z) : list Order.t :=
  fst (createOrders geo (Z.to_nat numOrders) src 0%nat).

(** [newOrders]: element [i] is the address of the [i]-th object. *)
Definition newOrdersOf (h : list Order.t) : list addr := seq 0 (length h).

(** [sortedOrders = [...newOrders].sort(...)] *)
Definition sortedOrdersOf (h : list Order.t) : list addr :=
  sort (compareAt h) (newOrdersOf h).

(** The state of the loop when [sortedOrders.map] returns. *)
Definition allocated (h : list Order.t) (fleetSize : Z) : AllocState :=
  allocate (initState fleetSize h) (sortedOrdersOf h).

(** Steps 2 to 4 on a given store of orders, all of them [newOrders]: the
    orders of [setOrders] (the callback of [map] returns its argument, so
    [simulatedOrders] holds the addresses of [sortedOrders]), read in the
    final store, and the result of [setResult]. *)
Definition simulate (h : list Order.t) (fleetSize : Z) : list Order.t * SimulationResult :=
  let final := allocated h fleetSize in
  let simulatedOrders := sortedOrdersOf h in
  ((fun a : addr => heap final !!! a) <$> simulatedOrders, metrics final).

Definition runSimulation (geo : Geometry) (src : RandomSource)
    (numOrders fleetSize : Z) : list Order.t * SimulationResult :=
  simulate (generated geo src numOrders) fleetSize.

(** A call of [runSimulation]: it throws what step 1 throws and sets
    nothing, or it goes through steps 2 to 4 and sets [orders] and [result]
    (to what [runSimulation] above gives, see [runSimulationCall_returns]). *)
Definition runSimulationCall (geo : Geometry) (src : RandomSource)
    (numOrders fleetSize : Z) : Thrown + list Order.t * SimulationResult :=
  match fst (generateOrders geo numOrders src 0%nat) with
  | inl thrown => inl thrown
  | inr newOrders => inr (simulate newOrders fleetSize)
  end.

(** ** Notions used by the specification *)

(** [a] may come before [b] in a sorted array: the comparator does not
    put [b] first. *)
Definition notAfter {A} (compareFn : A -> A -> Z) (a b : A) : Prop :=
  compareFn a b <= 0.

(** [a] and [b] tie: neither has to come first. *)
Definition tie {A} (compareFn : A -> A -> Z) (a b : A) : Prop :=
  compareFn a b <= 0 /\ compareFn b a <= 0.

#[global] Instance tie_dec {A} (compareFn : A -> A -> Z) a b :
  Decision (tie compareFn a b).
Proof. unfold tie. apply _. Defined.

(** Two objects that agree on every field but [status]. *)
Definition sameData (o o' : Order.t) : Prop :=
  Order.setStatus Pending o = Order.setStatus Pending o'.

(** The dispatch sequence: the orders of [sortedOrders], as generated. *)
Definition dispatchSequence (h : list Order.t) : list Order.t :=
  (fun a : addr => h !!! a) <$> sortedOrdersOf h.

(** The state of the loop after its first [j] visits. *)
Definition stateAfter (h : list Order.t) (fleetSize : Z) (j : nat) : AllocState :=
  allocate (initState fleetSize h) (take j (sortedOrdersOf h)).

(** The number of owned vehicles in use after [k] visits. *)
Definition ownedAfter (fleetSize : Z) (k : nat) : Z :=
  Z.min (Z.of_nat k) (Z.max 0 fleetSize).

(** The entry logged for the order [o] visited at position [k] (from 0). *)
Definition recordAt (fleetSize : Z) (k : nat) (o : Order.t) : Dispatch.t :=
  if Z.of_nat k <? fleetSize then
    Dispatch.mk (Order.id o) ("VEH-" +:+ pretty (Z.of_nat k + 1)) "Owned"
      (COST_OWNED_FIXED + inject_Z (Order.distance o) * COST_OWNED_PER_KM)%Q
      (Order.distance o)
  else
    Dispatch.mk (Order.id o) "3RD-PARTY" "Outsourced"
      (COST_3RD_PARTY_FIXED + inject_Z (Order.distance o) * COST_3RD_PARTY_PER_KM)%Q
      (Order.distance o).

(** The status of the order visited at position [k], after its visit. *)
Definition statusAt (fleetSize : Z) (k : nat) : Status :=
  if Z.of_nat k <? fleetSize then Assigned else Outsourced.

(** Sums of a column of the schedule log, accumulated as the loop does. *)
Definition sumQ (l : list Q) : Q := fold_left Qplus l 0%Q.
Definition sumZ (l : list Z) : Z := fold_left Z.add l 0.

(** The invariant of the allocation loop: the state [s] reached from the
    store [h0] and [fleetSize] trucks after the visits [visited]. *)
Record AllocInv (fleetSize : Z) (h0 : list Order.t) (visited : list addr)
    (s : AllocState) : Prop := {
  inv_owned : ownedCount s = ownedAfter fleetSize (length visited);
  inv_outsourced :
    outsourcedCount s = Z.of_nat (length visited) - ownedAfter fleetSize (length visited);
  inv_trucks : availableTrucks s = fleetSize - ownedAfter fleetSize (length visited);
  inv_log :
    scheduleLog s = imap (recordAt fleetSize) ((fun a : addr => h0 !!! a) <$> visited);
  inv_cost : currentCost s = sumQ (Dispatch.cost <$> scheduleLog s);
  inv_km : kmCount s = sumZ (Dispatch.distance <$> scheduleLog s);
  inv_owned_log :
    ownedCount s =
    Z.of_nat (length (filter (fun d => Dispatch.method d = "Owned"%string) (scheduleLog s)));
  inv_outsourced_log :
    outsourcedCount s =
    Z.of_nat (length (filter (fun d => Dispatch.method d = "Outsourced"%string) (scheduleLog s)));
  inv_length : length (heap s) = length h0;
  inv_data : forall a : addr, sameData (heap s !!! a) (h0 !!! a)
}.

(** A source of draws for the examples: 0.00, 0.37, 0.74, 0.11, ... *)
Definition sampleDraws : RandomSource :=
  fun n => (inject_Z (Z.of_nat n * 37 mod 100) / 100)%Q.

(** The orders of the example scenario of the specification: distances
    10, 80, 30, 5, 60 and urgencies normal, urgent, normal, normal, urgent. *)
Definition scenarioOrder (i : nat) (u : Urgency) (d : Z) : Order.t :=
  Order.mk ("ORD-" +:+ pretty (1000 + Z.of_nat i)) Warehouse GP20 u d 0 0 Pending.

Definition scenario : list Order.t :=
  [scenarioOrder 0 Normal 10; scenarioOrder 1 Urgent 80; scenarioOrder 2 Normal 30;
   scenarioOrder 3 Normal 5; scenarioOrder 4 Urgent 60].

(** ** The dashboard

    What the component renders from [orders] and [result]
    ([src/index.tsx]).  [result] is [null] until the first run has set
    it: an [option]; [result?.f] is then [undefined]. *)

#[global] Instance ContainerSize_eq_dec : EqDecision ContainerSize.
Proof. solve_decision. Defined.

(** *** The Outsourced Orders card *)

(** [result?.outsourcedUsage > 0 ? ... : ...]; [undefined > 0] is false. *)
Definition outsourcedSubtext (result : option SimulationResult) : string :=
  match result with
  | Some r => if 0 <? outsourcedUsage r then "Fleet Capacity Exceeded" else "Fully Optimized"
  | None => "Fully Optimized"
  end.

Definition outsourcedColor (result : option SimulationResult) : string :=
  match result with
  | Some r =>
      if 0 <? outsourcedUsage r then "text-amber-600 bg-amber-600"
      else "text-slate-400 bg-slate-400"
  | None => "text-slate-400 bg-slate-400"
  end.

(** *** The Fleet Utilization card

    [Math.round((result?.ownedUsage / fleetSize) * 100)] is computed on
    IEEE doubles, here the primitive binary64 floats. *)

(** The double of an integer: the nearest one, ties to even. *)
Definition toDouble (z : Z) : float :=
  SF2Prim (binary_normalize prec emax z 0 false).

(** The values of [Math.round]: an integer (a zero of either sign is 0, it
    prints as 0), an infinity or [NaN]. *)
Inductive Rounded := Integer (z : Z) | Infinite (negative : bool) | NotANumber.

(** [Math.round(x)]: the integer nearest to [x], the larger one of two at
    the same distance, that is [floor (x + 1/2)] on the exact value of the
    double [x = +/- m * 2^e]. *)
Definition mathRound (x : float) : Rounded :=
  match Prim2SF x with
  | S754_zero _ => Integer 0
  | S754_infinity s => Infinite s
  | S754_nan => NotANumber
  | S754_finite s m e =>
      let num := if s then Z.neg m else Z.pos m in
      if 0 <=? e then Integer (num * 2 ^ e)
      else Integer ((2 * num + 2 ^ (- e)) / 2 ^ (- e + 1))
  end.

Definition fleetUtilization (result : option SimulationResult) (fleetSize : Z) : Rounded :=
  let owned := match result with Some r => toDouble (ownedUsage r) | None => nan end in
  mathRound (PrimFloat.mul (PrimFloat.div owned (toDouble fleetSize)) (toDouble 100)).

(** The percentage of [owned] in [fleetSize], rounded half up, in exact
    arithmetic. *)
Definition percentHalfUp (owned fleetSize : Z) : Z :=
  (200 * owned + fleetSize) / (2 * fleetSize).

(** What the card shows for [owned] vehicles in use out of [fleetSize]
    agrees with [expected]. *)
Definition utilizationIs (expected : Z -> Z -> Z) (fleetSize owned : Z) : bool :=
  match mathRound (PrimFloat.mul (PrimFloat.div (toDouble owned) (toDouble fleetSize))
                                 (toDouble 100)) with
  | Integer z => z =? expected owned fleetSize
  | _ => false
  end.

(** The percentage shown for a fleet of 1 to 50: rounded half up, but for
    23 out of 40, where the doubles give 57.499999999999993. *)
Definition shownPercent (owned fleetSize : Z) : Z :=
  if bool_decide (owned = 23 /\ fleetSize = 40) then 57
  else percentHalfUp owned fleetSize.

(** *** The map *)

Module Marker.
Record t := mk {
  key : string;
  cx : Q;
  cy : Q;
  r : Z;
  fill : string
}.
End Marker.

Module Route.
Record t := mk {
  key : string;
  x1 : Q;
  y1 : Q;
  x2 : Q;
  y2 : Q;
  stroke : string
}.
End Route.

(** [order.status === 'Assigned' ? '#3b82f6' : '#f59e0b'] *)
Definition statusColor (order : Order.t) : string :=
  if bool_decide (Order.status order = Assigned) then "#3b82f6" else "#f59e0b".

(** The circles of [orders.map]: key, centre, radius and fill. *)
Definition orderMarkers (orders : list Order.t) : list Marker.t :=
  (fun order =>
     Marker.mk (Order.id order) (Order.x order) (Order.y order)
       (if bool_decide (Order.size order = GP40) then 6 else 4)
       (statusColor order)) <$> orders.

(** The lines of [orders.map], from the port to the order. *)
Definition orderRoutes (geo : Geometry) (orders : list Order.t) : list Route.t :=
  (fun order =>
     Route.mk ("line-" +:+ Order.id order) (PORT_X geo) (PORT_Y geo)
       (Order.x order) (Order.y order) (statusColor order)) <$> orders.

(** *** The dispatch log table *)

(** [result?.schedule.slice(0, 15)]: 15 rows in [index.tsx], 10 in
    [YunfengDashboard.tsx]; nothing while [result] is [null]. *)
Definition scheduleRows (limit : nat) (result : option SimulationResult) : list Dispatch.t :=
  match result with
  | Some r => take limit (schedule r)
  | None => []
  end.

(** The badge of a row: [row.method === 'Owned' ? ... : ...] *)
Definition methodBadge (row : Dispatch.t) : string :=
  if bool_decide (Dispatch.method row = "Owned"%string)
  then "bg-blue-100 text-blue-700" else "bg-amber-100 text-amber-700".

(** The entries of a log with the given method, and their distances. *)
Definition entriesOf (method : string) (log : list Dispatch.t) : list Dispatch.t :=
  filter (fun d => Dispatch.method d = method) log.

Definition kmOf (method : string) (log : list Dispatch.t) : Z :=
  sumZ (Dispatch.distance <$> entriesOf method log).

(** An entry as the loop writes it: owned or outsourced, with the cost of
    its method. *)
Definition entryPriced (d : Dispatch.t) : Prop :=
  (Dispatch.method d = "Owned"%string /\
   Dispatch.cost d
   = (COST_OWNED_FIXED + inject_Z (Dispatch.distance d) * COST_OWNED_PER_KM)%Q) \/
  (Dispatch.method d = "Outsourced"%string /\
   Dispatch.cost d
   = (COST_3RD_PARTY_FIXED + inject_Z (Dispatch.distance d) * COST_3RD_PARTY_PER_KM)%Q).

(** Reads of the fields of a state that is written out *)
Ltac state_simpl :=
  cbn [currentCost ownedCount outsourcedCount kmCount availableTrucks
       scheduleLog heap].

(** * Verification *)

(** ** The random source and the generator *)

Lemma mapRand_length {A B} (f : A -> Rand B) (l : list A) src cur :
  length (fst (mapRand f l src cur)) = length l.
Proof.
  revert cur. induction l as [|a l IH]; intros cur; simpl; [done|].
  unfold bind, ret. destruct (f a src cur) as [b cur1].
  specialize (IH cur1). destruct (mapRand f l src cur1) as [bs cur2].
  simpl in *. by rewrite IH.
Qed.

Lemma mapRand_Forall {A B} (P : B -> Prop) (f : A -> Rand B) (l : list A) src cur :
  (forall a src' cur', P (fst (f a src' cur'))) ->
  Forall P (fst (mapRand f l src cur)).
Proof.
  intros Hf. revert cur. induction l as [|a l IH]; intros cur; simpl.
  - constructor.
  - unfold bind, ret. pose proof (Hf a src cur) as Ha.
    destruct (f a src cur) as [b cur1].
    specialize (IH cur1). destruct (mapRand f l src cur1) as [bs cur2].
    simpl in *. by constructor.
Qed.

(** Each call of the callback takes five draws, in the order x, y, type,
    size, urgency. *)
Lemma genOrder_cursor geo i src cur :
  snd (genOrder geo i src cur) = (cur + 5)%nat.
Proof. unfold genOrder, bind, random, ret. simpl. lia. Qed.

Lemma genOrder_status geo i src cur :
  Order.status (fst (genOrder geo i src cur)) = Pending.
Proof. reflexivity. Qed.

Lemma genOrder_distance geo i src cur :
  KM_OFFSET geo <= Order.distance (fst (genOrder geo i src cur)).
Proof.
  unfold genOrder, bind, random, ret, floorSqrtScaled. simpl.
  match goal with |- _ <= Z.sqrt ?q + _ => pose proof (Z.sqrt_nonneg q) end.
  lia.
Qed.

Lemma genOrder_id geo i src cur :
  Order.id (fst (genOrder geo i src cur)) = "ORD-" +:+ pretty (1000 + Z.of_nat i).
Proof. reflexivity. Qed.

(** [floorSqrtScaled s k] is the integer part of [sqrt s * k]: its square
    is at most [s * k * k], the square of its successor is more. *)
Lemma floorSqrtScaled_spec (s k : Q) :
  (0 <= s)%Q ->
  let m := floorSqrtScaled s k in
  0 <= m /\
  (inject_Z (m * m) <= s * (k * k) /\ s * (k * k) < inject_Z ((m + 1) * (m + 1)))%Q.
Proof.
  intros Hs m. subst m. unfold floorSqrtScaled.
  set (q := (s * (k * k))%Q).
  assert (Hq : (0 <= q)%Q) by (subst q; nra).
  assert (Hfl : 0 <= Qfloor q).
  { change 0 with (Qfloor 0). by apply Qfloor_resp_le. }
  pose proof (Z.sqrt_spec (Qfloor q) Hfl) as [Hlo Hhi].
  split; [apply Z.sqrt_nonneg|]. split.
  - apply Qle_trans with (inject_Z (Qfloor q)); [|apply Qfloor_le].
    rewrite <- Zle_Qle. exact Hlo.
  - apply Qlt_le_trans with (inject_Z (Qfloor q + 1)); [apply Qlt_floor|].
    rewrite <- Zle_Qle. unfold Z.succ in Hhi. lia.
Qed.

Lemma mapRand_cons {A B} (f : A -> Rand B) a l src cur :
  mapRand f (a :: l) src cur
  = (fst (f a src cur) :: fst (mapRand f l src (snd (f a src cur))),
     snd (mapRand f l src (snd (f a src cur)))).
Proof.
  simpl. unfold bind, ret. destruct (f a src cur) as [b cur1]. simpl.
  by destruct (mapRand f l src cur1).
Qed.

Lemma mapRand_genOrder_lookup geo src (j n cur i : nat) :
  (i < n)%nat ->
  fst (mapRand (genOrder geo) (seq j n) src cur) !! i
  = Some (fst (genOrder geo (j + i) src (cur + 5 * i)%nat)).
Proof.
  revert j cur i. induction n as [|n IH]; intros j cur i Hi; [lia|].
  cbn [seq]. rewrite mapRand_cons, genOrder_cursor. cbn [fst]. destruct i as [|i].
  - by replace (j + 0)%nat with j by lia;
       replace (cur + 5 * 0)%nat with cur by lia.
  - change (fst (mapRand (genOrder geo) (seq (S j) n) src (cur + 5)%nat) !! i
            = Some (fst (genOrder geo (j + S i) src (cur + 5 * S i)%nat))).
    rewrite IH by lia.
    by replace (S j + i)%nat with (j + S i)%nat by lia;
       replace (cur + 5 + 5 * i)%nat with (cur + 5 * S i)%nat by lia.
Qed.

Lemma generated_length geo src n :
  length (generated geo src n) = Z.to_nat n.
Proof. unfold generated, createOrders. by rewrite mapRand_length, length_seq. Qed.

(** The order of index [i] is made from the draws [5 i], ..., [5 i + 4]. *)
Lemma generated_lookup geo src n (i : nat) :
  (i < Z.to_nat n)%nat ->
  generated geo src n !! i = Some (fst (genOrder geo i src (5 * i)%nat)).
Proof.
  intros Hi. unfold generated, createOrders.
  by rewrite mapRand_genOrder_lookup.
Qed.

Lemma order_label_inj : Inj (=) (=) (fun i : nat => "ORD-" +:+ pretty (1000 + Z.of_nat i)).
Proof.
  intros i j H. apply (inj (String.app "ORD-")) in H. apply (inj pretty) in H. lia.
Qed.

Lemma generated_ids geo src numOrders :
  Order.id <$> generated geo src numOrders
  = (fun i : nat => "ORD-" +:+ pretty (1000 + Z.of_nat i)) <$> seq 0 (Z.to_nat numOrders).
Proof.
  apply list_eq. intros i. rewrite !list_lookup_fmap.
  destruct (decide (i < Z.to_nat numOrders)%nat) as [Hi|Hi].
  - by rewrite generated_lookup, lookup_seq_lt by done.
  - rewrite lookup_ge_None_2 by (rewrite generated_length; lia).
    by rewrite lookup_seq_ge by lia.
Qed.

Lemma generated_Forall geo src n :
  Forall (fun o => Order.status o = Pending /\ KM_OFFSET geo <= Order.distance o)
         (generated geo src n).
Proof.
  unfold generated, createOrders. apply mapRand_Forall.
  intros i src' cur'. split; [apply genOrder_status | apply genOrder_distance].
Qed.

(** The generator returns when the array can be made, and throws otherwise,
    without a draw. *)
Lemma generateOrders_returns geo src numOrders :
  numOrders <= MAX_ARRAY_LENGTH ->
  generateOrders geo numOrders src 0%nat
  = (inr (generated geo src numOrders),
     snd (createOrders geo (Z.to_nat numOrders) src 0%nat)).
Proof.
  intros Hn. unfold generateOrders, generated.
  destruct (MAX_ARRAY_LENGTH <? numOrders) eqn:E; [apply Z.ltb_lt in E; lia|].
  unfold bind, ret. by destruct (createOrders geo (Z.to_nat numOrders) src 0%nat).
Qed.

Lemma generateOrders_throws geo src numOrders cur :
  MAX_ARRAY_LENGTH < numOrders ->
  generateOrders geo numOrders src cur = (inl RangeError, cur).
Proof.
  intros Hn. unfold generateOrders.
  by destruct (MAX_ARRAY_LENGTH <? numOrders) eqn:E; [|apply Z.ltb_ge in E; lia].
Qed.

Lemma runSimulationCall_returns geo src numOrders fleetSize :
  numOrders <= MAX_ARRAY_LENGTH ->
  runSimulationCall geo src numOrders fleetSize
  = inr (runSimulation geo src numOrders fleetSize).
Proof.
  intros Hn. unfold runSimulationCall. by rewrite generateOrders_returns.
Qed.

Lemma runSimulationCall_throws geo src numOrders fleetSize :
  MAX_ARRAY_LENGTH < numOrders ->
  runSimulationCall geo src numOrders fleetSize = inl RangeError.
Proof.
  intros Hn. unfold runSimulationCall. by rewrite generateOrders_throws.
Qed.

(** ** The sort *)

Section SortFacts.
Context {A : Type} (compareFn : A -> A -> Z).

Lemma insertSorted_Permutation a l : insertSorted compareFn a l ≡ₚ a :: l.
Proof.
  induction l as [|b l IH]; simpl; [done|].
  destruct (compareFn a b <=? 0); [done|].
  rewrite IH. apply Permutation_swap.
Qed.

Lemma sort_Permutation l : sort compareFn l ≡ₚ l.
Proof.
  induction l as [|a l IH]; simpl; [done|].
  rewrite insertSorted_Permutation. by rewrite IH.
Qed.

Lemma sort_length l : length (sort compareFn l) = length l.
Proof. by rewrite sort_Permutation. Qed.

(** Elements of one class of ties keep their relative order: a class is
    a set [P] of elements that never compare as greater to one another. *)
Lemma insertSorted_filter (P : A -> Prop) `{!forall a, Decision (P a)} a l :
  (forall b c, P b -> P c -> compareFn b c <= 0) ->
  filter P (insertSorted compareFn a l) = filter P (a :: l).
Proof.
  intros Hclass. induction l as [|b l IH]; simpl; [done|].
  destruct (compareFn a b <=? 0) eqn:Hab; [done|].
  apply Z.leb_gt in Hab.
  rewrite (filter_cons P b), IH, !filter_cons.
  destruct (decide (P a)) as [Ha|Ha], (decide (P b)) as [Hb|Hb]; try done.
  specialize (Hclass a b Ha Hb). lia.
Qed.

Lemma sort_filter (P : A -> Prop) `{!forall a, Decision (P a)} l :
  (forall b c, P b -> P c -> compareFn b c <= 0) ->
  filter P (sort compareFn l) = filter P l.
Proof.
  intros Hclass. induction l as [|a l IH]; simpl; [done|].
  rewrite insertSorted_filter by done.
  by rewrite !filter_cons, IH.
Qed.

(** The result is sorted when the comparator is consistent. *)
Hypothesis compare_total :
  forall a b, notAfter compareFn a b \/ notAfter compareFn b a.
Hypothesis compare_trans :
  forall a b c, notAfter compareFn a b -> notAfter compareFn b c -> notAfter compareFn a c.

Lemma insertSorted_sorted a l :
  StronglySorted (notAfter compareFn) l ->
  StronglySorted (notAfter compareFn) (insertSorted compareFn a l).
Proof.
  induction 1 as [|b l Hl IH Hb]; simpl.
  - repeat constructor.
  - destruct (compareFn a b <=? 0) eqn:Hab.
    + apply Z.leb_le in Hab. constructor; [by constructor|].
      constructor; [done|].
      eapply Forall_impl; [exact Hb|]. intros c Hc. by eapply compare_trans.
    + apply Z.leb_gt in Hab. constructor; [done|].
      rewrite insertSorted_Permutation. constructor; [|done].
      destruct (compare_total a b) as [H|H]; [unfold notAfter in H; lia|done].
Qed.

Lemma sort_sorted l : StronglySorted (notAfter compareFn) (sort compareFn l).
Proof.
  induction l as [|a l IH]; simpl; [constructor|]. by apply insertSorted_sorted.
Qed.
End SortFacts.

(** Sorting addresses by what they point to is sorting what they point to. *)
Lemma sort_fmap {A B} (f : A -> B) (compareFn : B -> B -> Z) (l : list A) :
  f <$> sort (fun a b => compareFn (f a) (f b)) l = sort compareFn (f <$> l).
Proof.
  unfold sort. induction l as [|a l IH]; [done|].
  rewrite fmap_cons. cbn [foldr]. rewrite <- IH.
  generalize (foldr (insertSorted (fun a b => compareFn (f a) (f b))) [] l).
  intros s. induction s as [|b s IHs]; [done|].
  rewrite fmap_cons. cbn [insertSorted].
  destruct (compareFn (f a) (f b) <=? 0); [done|].
  by rewrite fmap_cons, IHs.
Qed.

Lemma StronglySorted_lookup {A} (R : A -> A -> Prop) (l : list A) i j a b :
  StronglySorted R l -> (i < j)%nat -> l !! i = Some a -> l !! j = Some b -> R a b.
Proof.
  intros Hs. revert i j. induction Hs as [|c l Hl IH Hc]; intros i j Hij Hi Hj.
  - by rewrite lookup_nil in Hi.
  - destruct j as [|j]; [lia|]. simpl in Hj. destruct i as [|i]; simpl in Hi.
    + injection Hi as <-. rewrite Forall_forall in Hc. apply Hc.
      by eapply list_elem_of_lookup_2.
    + apply (IH i j); [lia|done..].
Qed.

(** Any two sorted arrangements that keep every class of ties in the same
    order are equal: the result of a stable sort does not depend on the
    algorithm. *)
Section SortUnique.
Context {A : Type} (compareFn : A -> A -> Z).
Hypothesis compare_total :
  forall a b, notAfter compareFn a b \/ notAfter compareFn b a.
Hypothesis compare_trans :
  forall a b c, notAfter compareFn a b -> notAfter compareFn b c -> notAfter compareFn a c.

Lemma tie_refl a : tie compareFn a a.
Proof. unfold tie. destruct (compare_total a a); done. Qed.

Lemma stable_sorted_unique (l1 l2 : list A) :
  StronglySorted (notAfter compareFn) l1 ->
  StronglySorted (notAfter compareFn) l2 ->
  (forall a, filter (tie compareFn a) l1 = filter (tie compareFn a) l2) ->
  l1 = l2.
Proof.
  intros H1. revert l2. induction H1 as [|a l1 Hl1 IH Ha]; intros l2 H2 Hf.
  - destruct l2 as [|b l2]; [done|].
    specialize (Hf b). rewrite filter_nil, filter_cons in Hf.
    destruct (decide (tie compareFn b b)) as [|Hn]; [done|]. destruct Hn. apply tie_refl.
  - destruct l2 as [|b l2].
    { specialize (Hf a). rewrite filter_nil, filter_cons in Hf.
      destruct (decide (tie compareFn a a)) as [|Hn]; [done|]. destruct Hn. apply tie_refl. }
    apply StronglySorted_inv in H2 as [H2 Hb].
    assert (a = b) as <-.
    { pose proof (Hf a) as Hfa. pose proof (Hf b) as Hfb.
      rewrite !filter_cons in Hfa, Hfb.
      destruct (decide (tie compareFn a a)) as [_|Hn]; [|destruct Hn; apply tie_refl].
      destruct (decide (tie compareFn b b)) as [_|Hn]; [|destruct Hn; apply tie_refl].
      destruct (decide (tie compareFn a b)) as [|Hnab]; [congruence|].
      destruct (decide (tie compareFn b a)) as [Hba|Hnba]; [destruct Hnab as []; split; apply Hba|].
      assert (a ∈ l2) as Hal2.
      { apply (list_elem_of_filter (tie compareFn a)). rewrite <- Hfa. left. }
      assert (b ∈ l1) as Hbl1.
      { apply (list_elem_of_filter (tie compareFn b)). rewrite Hfb. left. }
      rewrite Forall_forall in Ha, Hb.
      destruct Hnab. split; [by apply Ha | by apply Hb]. }
    f_equal. apply IH; [done|]. intros c. specialize (Hf c).
    rewrite !filter_cons in Hf. destruct (decide (tie compareFn c a)); congruence.
Qed.

Lemma sort_unique (l l' : list A) :
  StronglySorted (notAfter compareFn) l' ->
  (forall a, filter (tie compareFn a) l' = filter (tie compareFn a) l) ->
  l' = sort compareFn l.
Proof.
  intros Hs Hf. apply stable_sorted_unique; [done| |].
  - by apply sort_sorted.
  - intros a. rewrite sort_filter; [done|].
    intros b c [_ Hba] [Hac _]. by eapply compare_trans.
Qed.
End SortUnique.

(** ** The comparator *)

Lemma compareOrders_le a b :
  compareOrders a b <= 0 <->
  (Order.urgency a = Urgent /\ Order.urgency b = Normal) \/
  (Order.urgency a = Order.urgency b /\ Order.distance b <= Order.distance a).
Proof.
  unfold compareOrders.
  destruct (Order.urgency a), (Order.urgency b);
    repeat case_bool_decide; simpl; try congruence;
    intuition (congruence || lia).
Qed.

Lemma compareOrders_total a b :
  notAfter compareOrders a b \/ notAfter compareOrders b a.
Proof.
  unfold notAfter. rewrite !compareOrders_le.
  destruct (Order.urgency a), (Order.urgency b);
    destruct (Z.le_ge_cases (Order.distance a) (Order.distance b)); intuition (congruence || lia).
Qed.

Lemma compareOrders_trans a b c :
  notAfter compareOrders a b -> notAfter compareOrders b c -> notAfter compareOrders a c.
Proof.
  unfold notAfter. rewrite !compareOrders_le.
  destruct (Order.urgency a), (Order.urgency b), (Order.urgency c); intuition (congruence || lia).
Qed.

(** The comparator is consistent: swapping its arguments flips the sign of
    the result. *)
Lemma compareOrders_sign a b :
  Z.sgn (compareOrders b a) = - Z.sgn (compareOrders a b).
Proof.
  unfold compareOrders.
  destruct (Order.urgency a), (Order.urgency b);
    repeat case_bool_decide; simpl; try congruence; lia.
Qed.

(** Two orders tie exactly when they agree on urgency and distance. *)
Lemma compareOrders_tie a b :
  tie compareOrders a b <->
  Order.urgency a = Order.urgency b /\ Order.distance a = Order.distance b.
Proof.
  unfold tie. rewrite !compareOrders_le.
  destruct (Order.urgency a), (Order.urgency b); intuition (congruence || lia).
Qed.

(** ** The allocation loop *)

Lemma allocate_snoc s l a : allocate s (l ++ [a]) = allocStep (allocate s l) a.
Proof. unfold allocate. by rewrite fold_left_app. Qed.

Lemma sameData_fields o o' :
  sameData o o' ->
  Order.id o = Order.id o' /\ Order.urgency o = Order.urgency o' /\
  Order.distance o = Order.distance o'.
Proof. unfold sameData, Order.setStatus. intros H. injection H. auto. Qed.

Lemma sameData_setStatus st o : sameData (Order.setStatus st o) o.
Proof. reflexivity. Qed.

Lemma sameData_trans o1 o2 o3 : sameData o1 o2 -> sameData o2 o3 -> sameData o1 o3.
Proof. unfold sameData. congruence. Qed.

(** Writing [status] at one address leaves the other fields of every
    object as they were. *)
Lemma alter_status_data st (a b : addr) (h : list Order.t) :
  sameData (alter (Order.setStatus st) a h !!! b) (h !!! b).
Proof.
  rewrite list_lookup_total_alter.
  case_decide as H; [destruct H as [-> _]; apply sameData_setStatus | done].
Qed.

Lemma alter_status_distance st (a b : addr) (h : list Order.t) :
  Order.distance (alter (Order.setStatus st) a h !!! b) = Order.distance (h !!! b).
Proof. apply (sameData_fields _ _ (alter_status_data st a b h)). Qed.

Lemma alter_status_id st (a b : addr) (h : list Order.t) :
  Order.id (alter (Order.setStatus st) a h !!! b) = Order.id (h !!! b).
Proof. apply (sameData_fields _ _ (alter_status_data st a b h)). Qed.

(** The two branches of the callback. *)
Lemma allocStep_owned s (a : addr) :
  0 < availableTrucks s ->
  let d := Order.distance (heap s !!! a) in
  let cost := (COST_OWNED_FIXED + inject_Z d * COST_OWNED_PER_KM)%Q in
  allocStep s a =
  {| currentCost := (currentCost s + cost)%Q;
     ownedCount := ownedCount s + 1;
     outsourcedCount := outsourcedCount s;
     kmCount := kmCount s + d;
     availableTrucks := availableTrucks s - 1;
     scheduleLog :=
       scheduleLog s ++
       [Dispatch.mk (Order.id (heap s !!! a)) ("VEH-" +:+ pretty (ownedCount s + 1))
                    "Owned" cost d];
     heap := alter (Order.setStatus Assigned) a (heap s) |}.
Proof.
  intros Hav d cost. unfold allocStep.
  destruct (0 <? availableTrucks s) eqn:E; [|apply Z.ltb_ge in E; lia].
  by rewrite alter_status_distance, alter_status_id.
Qed.

Lemma allocStep_outsourced s (a : addr) :
  availableTrucks s <= 0 ->
  let d := Order.distance (heap s !!! a) in
  let cost := (COST_3RD_PARTY_FIXED + inject_Z d * COST_3RD_PARTY_PER_KM)%Q in
  allocStep s a =
  {| currentCost := (currentCost s + cost)%Q;
     ownedCount := ownedCount s;
     outsourcedCount := outsourcedCount s + 1;
     kmCount := kmCount s + d;
     availableTrucks := availableTrucks s;
     scheduleLog :=
       scheduleLog s ++
       [Dispatch.mk (Order.id (heap s !!! a)) "3RD-PARTY" "Outsourced" cost d];
     heap := alter (Order.setStatus Outsourced) a (heap s) |}.
Proof.
  intros Hav d cost. unfold allocStep.
  destruct (0 <? availableTrucks s) eqn:E; [apply Z.ltb_lt in E; lia|].
  by rewrite alter_status_distance, alter_status_id.
Qed.

Lemma sumQ_snoc l q : sumQ (l ++ [q]) = (sumQ l + q)%Q.
Proof. unfold sumQ. by rewrite fold_left_app. Qed.

Lemma sumZ_snoc l z : sumZ (l ++ [z]) = sumZ l + z.
Proof. unfold sumZ. by rewrite fold_left_app. Qed.

Lemma AllocInv_init fleetSize h0 : AllocInv fleetSize h0 [] (initState fleetSize h0).
Proof. split; simpl; unfold ownedAfter; try done; lia. Qed.

Lemma AllocInv_step fleetSize h0 visited s (a : addr) :
  AllocInv fleetSize h0 visited s ->
  AllocInv fleetSize h0 (visited ++ [a]) (allocStep s a).
Proof.
  intros [Hown Hout Htr Hlog Hcost Hkm Hownl Houtl Hlen Hdata].
  destruct (sameData_fields _ _ (Hdata a)) as (Hid & _ & Hd).
  assert (Hrec : imap (recordAt fleetSize) ((fun a : addr => h0 !!! a) <$> (visited ++ [a]))
                 = scheduleLog s ++ [recordAt fleetSize (length visited) (h0 !!! a)]).
  { rewrite fmap_app, imap_app, length_fmap, <- Hlog. simpl.
    by rewrite Nat.add_0_r. }
  destruct (decide (0 < availableTrucks s)) as [Hav|Hav].
  - rewrite allocStep_owned by done.
    assert (Hk : Z.of_nat (length visited) < fleetSize)
      by (unfold ownedAfter in Htr; lia).
    assert (Hown' : ownedCount s = Z.of_nat (length visited))
      by (unfold ownedAfter in Hown; lia).
    split; state_simpl; rewrite ?length_app; cbn [length];
      unfold ownedAfter in *; try lia.
    + rewrite Hrec. unfold recordAt.
      destruct (Z.of_nat (length visited) <? fleetSize) eqn:E;
        [|apply Z.ltb_ge in E; lia].
      by rewrite Hid, Hd, Hown'.
    + rewrite Hcost, fmap_app. symmetry. apply sumQ_snoc.
    + rewrite Hkm, fmap_app. symmetry. apply sumZ_snoc.
    + rewrite filter_app, length_app, Hownl, filter_cons. cbn [Dispatch.method].
      case_decide; try discriminate; try congruence;
        rewrite ?filter_nil; cbn [length]; lia.
    + rewrite filter_app, length_app, Houtl, filter_cons. cbn [Dispatch.method].
      case_decide; try discriminate; try congruence;
        rewrite ?filter_nil; cbn [length]; lia.
    + by rewrite length_alter.
    + intros b. eapply sameData_trans; [apply alter_status_data|apply Hdata].
  - rewrite allocStep_outsourced by lia.
    assert (Hk : fleetSize <= Z.of_nat (length visited))
      by (unfold ownedAfter in Htr; lia).
    split; state_simpl; rewrite ?length_app; cbn [length];
      unfold ownedAfter in *; try lia.
    + rewrite Hrec. unfold recordAt.
      destruct (Z.of_nat (length visited) <? fleetSize) eqn:E;
        [apply Z.ltb_lt in E; lia|].
      by rewrite Hid, Hd.
    + rewrite Hcost, fmap_app. symmetry. apply sumQ_snoc.
    + rewrite Hkm, fmap_app. symmetry. apply sumZ_snoc.
    + rewrite filter_app, length_app, Hownl, filter_cons. cbn [Dispatch.method].
      case_decide; try discriminate; try congruence;
        rewrite ?filter_nil; cbn [length]; lia.
    + rewrite filter_app, length_app, Houtl, filter_cons. cbn [Dispatch.method].
      case_decide; try discriminate; try congruence;
        rewrite ?filter_nil; cbn [length]; lia.
    + by rewrite length_alter.
    + intros b. eapply sameData_trans; [apply alter_status_data|apply Hdata].
Qed.

Lemma AllocInv_allocate fleetSize h0 visited :
  AllocInv fleetSize h0 visited (allocate (initState fleetSize h0) visited).
Proof.
  induction visited as [|a visited IH] using rev_ind.
  - apply AllocInv_init.
  - rewrite allocate_snoc. by apply AllocInv_step.
Qed.

(** *** The status of the orders along the loop *)

Lemma allocStep_heap s (a : addr) :
  heap (allocStep s a) =
  alter (Order.setStatus (if 0 <? availableTrucks s then Assigned else Outsourced))
        a (heap s).
Proof. unfold allocStep. by destruct (0 <? availableTrucks s). Qed.

Lemma allocStep_status_other s (a b : addr) :
  a <> b ->
  Order.status (heap (allocStep s a) !!! b) = Order.status (heap s !!! b).
Proof. intros Hab. by rewrite allocStep_heap, list_lookup_total_alter_ne. Qed.

Lemma allocStep_status_self s (a : addr) :
  (a < length (heap s))%nat ->
  Order.status (heap (allocStep s a) !!! a) =
  if 0 <? availableTrucks s then Assigned else Outsourced.
Proof. intros Ha. by rewrite allocStep_heap, list_lookup_total_alter_eq. Qed.

(** The trucks are exhausted exactly from position [fleetSize] on. *)
Lemma AllocInv_trucks_positive fleetSize h0 visited s :
  AllocInv fleetSize h0 visited s ->
  (0 <? availableTrucks s) = (Z.of_nat (length visited) <? fleetSize).
Proof.
  intros Hinv. rewrite (inv_trucks _ _ _ _ Hinv). unfold ownedAfter.
  destruct (Z.of_nat (length visited) <? fleetSize) eqn:E.
  - apply Z.ltb_lt in E. apply Z.ltb_lt. lia.
  - apply Z.ltb_ge in E. apply Z.ltb_ge. lia.
Qed.

Lemma allocate_status_unvisited fleetSize h0 visited (b : addr) :
  b ∉ visited ->
  Order.status (heap (allocate (initState fleetSize h0) visited) !!! b)
  = Order.status (h0 !!! b).
Proof.
  induction visited as [|a visited IH] using rev_ind; intros Hb; [done|].
  rewrite allocate_snoc. rewrite not_elem_of_app, list_elem_of_singleton in Hb.
  destruct Hb as [Hb Hne]. rewrite allocStep_status_other by done. by apply IH.
Qed.

Lemma allocate_status_visited fleetSize h0 visited (k : nat) (a : addr) :
  NoDup visited -> visited !! k = Some a -> (a < length h0)%nat ->
  Order.status (heap (allocate (initState fleetSize h0) visited) !!! a)
  = statusAt fleetSize k.
Proof.
  revert k. induction visited as [|b visited IH] using rev_ind;
    intros k Hnd Hk Ha; [by rewrite lookup_nil in Hk|].
  apply NoDup_app in Hnd as (Hnd & Hdisj & _).
  rewrite allocate_snoc.
  pose proof (AllocInv_allocate fleetSize h0 visited) as Hinv.
  destruct (decide (k < length visited)%nat) as [Hlt|Hge].
  - rewrite lookup_app_l in Hk by done.
    assert (b <> a) as Hne.
    { intros ->. eapply Hdisj; [by eapply list_elem_of_lookup_2|left]. }
    rewrite allocStep_status_other by done. by apply IH.
  - rewrite lookup_app_r in Hk by lia.
    apply list_lookup_singleton_Some in Hk as [Hk ->].
    rewrite allocStep_status_self by (by rewrite (inv_length _ _ _ _ Hinv)).
    rewrite (AllocInv_trucks_positive _ _ _ _ Hinv). unfold statusAt.
    by replace k with (length visited) by lia.
Qed.

(** *** The arrays of addresses *)

Lemma lookup_total_newOrders (h : list Order.t) :
  (fun a : addr => h !!! a) <$> newOrdersOf h = h.
Proof.
  unfold newOrdersOf. apply list_eq. intros i. rewrite list_lookup_fmap.
  destruct (decide (i < length h)%nat) as [Hi|Hi].
  - rewrite lookup_seq_lt by done. simpl.
    by rewrite list_lookup_lookup_total_lt.
  - rewrite lookup_seq_ge, lookup_ge_None_2 by lia. done.
Qed.

Lemma sortedOrdersOf_Permutation h : sortedOrdersOf h ≡ₚ newOrdersOf h.
Proof. apply sort_Permutation. Qed.

Lemma sortedOrdersOf_length h : length (sortedOrdersOf h) = length h.
Proof.
  rewrite sortedOrdersOf_Permutation. unfold newOrdersOf. by rewrite length_seq.
Qed.

Lemma sortedOrdersOf_NoDup h : NoDup (sortedOrdersOf h).
Proof. rewrite sortedOrdersOf_Permutation. apply NoDup_seq. Qed.

Lemma sortedOrdersOf_lt h (a : addr) : a ∈ sortedOrdersOf h -> (a < length h)%nat.
Proof.
  rewrite sortedOrdersOf_Permutation. unfold newOrdersOf.
  rewrite elem_of_seq. lia.
Qed.

(** Every order is in [sortedOrders], at one position. *)
Lemma sortedOrdersOf_position h (a : addr) :
  (a < length h)%nat -> exists k, sortedOrdersOf h !! k = Some a.
Proof.
  intros Ha. apply list_elem_of_lookup_1. rewrite sortedOrdersOf_Permutation.
  unfold newOrdersOf. rewrite elem_of_seq. lia.
Qed.

(** The dispatch sequence is the generated list, sorted. *)
Lemma dispatchSequence_sort h : dispatchSequence h = sort compareOrders h.
Proof.
  unfold dispatchSequence, sortedOrdersOf, compareAt.
  by rewrite (sort_fmap (fun a : addr => h !!! a) compareOrders), lookup_total_newOrders.
Qed.

Lemma dispatchSequence_length h : length (dispatchSequence h) = length h.
Proof. unfold dispatchSequence. by rewrite length_fmap, sortedOrdersOf_length. Qed.

(** ** The simulation in closed form *)

Lemma allocated_inv h fleetSize :
  AllocInv fleetSize h (sortedOrdersOf h) (allocated h fleetSize).
Proof. apply AllocInv_allocate. Qed.

Lemma stateAfter_inv h fleetSize j :
  AllocInv fleetSize h (take j (sortedOrdersOf h)) (stateAfter h fleetSize j).
Proof. apply AllocInv_allocate. Qed.

Lemma stateAfter_all h fleetSize :
  stateAfter h fleetSize (length h) = allocated h fleetSize.
Proof.
  unfold stateAfter, allocated.
  by rewrite take_ge by (by rewrite sortedOrdersOf_length).
Qed.

Lemma stateAfter_S h fleetSize (k : nat) (a : addr) :
  sortedOrdersOf h !! k = Some a ->
  stateAfter h fleetSize (S k) = allocStep (stateAfter h fleetSize k) a.
Proof.
  intros Hk. unfold stateAfter. by rewrite (take_S_r _ _ _ Hk), allocate_snoc.
Qed.

Lemma simulate_schedule h fleetSize :
  schedule (snd (simulate h fleetSize)) = imap (recordAt fleetSize) (dispatchSequence h).
Proof. apply (inv_log _ _ _ _ (allocated_inv h fleetSize)). Qed.

Lemma simulate_schedule_length h fleetSize :
  length (schedule (snd (simulate h fleetSize))) = length h.
Proof. by rewrite simulate_schedule, length_imap, dispatchSequence_length. Qed.

Lemma simulate_ownedUsage h fleetSize :
  ownedUsage (snd (simulate h fleetSize)) = ownedAfter fleetSize (length h).
Proof.
  simpl. rewrite (inv_owned _ _ _ _ (allocated_inv h fleetSize)).
  by rewrite sortedOrdersOf_length.
Qed.

Lemma simulate_outsourcedUsage h fleetSize :
  outsourcedUsage (snd (simulate h fleetSize))
  = Z.of_nat (length h) - ownedAfter fleetSize (length h).
Proof.
  simpl. rewrite (inv_outsourced _ _ _ _ (allocated_inv h fleetSize)).
  by rewrite sortedOrdersOf_length.
Qed.

Lemma simulate_totalCost h fleetSize :
  let r := snd (simulate h fleetSize) in
  totalCost r = sumQ (Dispatch.cost <$> schedule r).
Proof. apply (inv_cost _ _ _ _ (allocated_inv h fleetSize)). Qed.

Lemma simulate_totalKm h fleetSize :
  let r := snd (simulate h fleetSize) in
  totalKm r = sumZ (Dispatch.distance <$> schedule r).
Proof. apply (inv_km _ _ _ _ (allocated_inv h fleetSize)). Qed.

Lemma sameData_status o o' : sameData o o' -> o = Order.setStatus (Order.status o) o'.
Proof.
  destruct o, o'. unfold sameData, Order.setStatus. simpl. intros H.
  injection H. congruence.
Qed.

(** The orders returned: the dispatch sequence, with the status of each
    order set by its position. *)
Lemma simulate_orders h fleetSize :
  fst (simulate h fleetSize)
  = imap (fun k => Order.setStatus (statusAt fleetSize k)) (dispatchSequence h).
Proof.
  unfold simulate, dispatchSequence. cbn [fst]. apply list_eq. intros k.
  rewrite list_lookup_imap, !list_lookup_fmap.
  destruct (sortedOrdersOf h !! k) as [a|] eqn:Hk; [|done]. simpl. f_equal.
  pose proof (inv_data _ _ _ _ (allocated_inv h fleetSize) a) as Hd.
  rewrite (sameData_status _ _ Hd). f_equal.
  apply allocate_status_visited; [apply sortedOrdersOf_NoDup|done|].
  apply sortedOrdersOf_lt. by eapply list_elem_of_lookup_2.
Qed.

Lemma simulate_orders_length h fleetSize :
  length (fst (simulate h fleetSize)) = length h.
Proof. by rewrite simulate_orders, length_imap, dispatchSequence_length. Qed.


Lemma sumQ_nonneg l : Forall (fun q => 0 <= q)%Q l -> (0 <= sumQ l)%Q.
Proof.
  induction l as [|q l IH] using rev_ind; intros Hl; [by unfold sumQ|].
  apply Forall_app in Hl as [Hl Hq]. apply Forall_inv in Hq.
  rewrite sumQ_snoc. specialize (IH Hl). cbv beta in Hq. lra.
Qed.

(** [sumQ] and [sumZ] are the sums of the list. *)
Lemma sumQ_cons q l : (sumQ (q :: l) == q + sumQ l)%Q.
Proof.
  induction l as [|q' l IH] using rev_ind; [unfold sumQ; simpl; lra|].
  change (q :: l ++ [q']) with ((q :: l) ++ [q']). rewrite !sumQ_snoc, IH. lra.
Qed.

Lemma sumZ_cons z l : sumZ (z :: l) = z + sumZ l.
Proof.
  induction l as [|z' l IH] using rev_ind; [unfold sumZ; simpl; lia|].
  change (z :: l ++ [z']) with ((z :: l) ++ [z']). rewrite !sumZ_snoc, IH. lia.
Qed.

Lemma savings_nonneg (factor c : Q) : (1 < factor -> 0 <= c -> 0 <= c * factor - c)%Q.
Proof. intros. nra. Qed.

Lemma recordAt_method fleetSize k o :
  Dispatch.method (recordAt fleetSize k o) = "Owned"%string \/
  Dispatch.method (recordAt fleetSize k o) = "Outsourced"%string.
Proof. unfold recordAt. destruct (Z.of_nat k <? fleetSize); auto. Qed.

(** The example scenario of the specification: five orders with the
    distances 10, 80, 30, 5, 60 and a fleet of two.  The two urgent orders
    (80, then 60) go first and get the owned vehicles; the normal ones
    follow by decreasing distance and are outsourced. *)
Example scenario_run :
  let run := simulate scenario 2 in
  Order.distance <$> fst run = [80; 60; 30; 10; 5] /\
  Order.urgency <$> fst run = [Urgent; Urgent; Normal; Normal; Normal] /\
  Order.status <$> fst run = [Assigned; Assigned; Outsourced; Outsourced; Outsourced] /\
  Dispatch.vehicleId <$> schedule (snd run)
  = ["VEH-1"; "VEH-2"; "3RD-PARTY"; "3RD-PARTY"; "3RD-PARTY"]%string /\
  Dispatch.cost <$> schedule (snd run) = [1380.0; 1110.0; 2420.0; 2140.0; 2070.0]%Q /\
  ownedUsage (snd run) = 2 /\ outsourcedUsage (snd run) = 3 /\ totalKm (snd run) = 185.
Proof. vm_compute. repeat split; reflexivity. Qed.

(** * The claims *)

(** C1. For every run of the simulation with a non-negative [fleetSize],
    [ownedUsage + outsourcedUsage] is the number of orders processed, every
    order being counted in exactly one of the two branches (its record is
    either an owned or an outsourced one, and the two counters count these
    records), and [ownedUsage <= fleetSize]. *)
Theorem C1_usage_counts geo src numOrders fleetSize :
  0 <= fleetSize ->
  let run := runSimulation geo src numOrders fleetSize in
  let r := snd run in
  ownedUsage r + outsourcedUsage r = Z.of_nat (length (fst run)) /\
  length (fst run) = Z.to_nat numOrders /\
  length (schedule r) = length (fst run) /\
  Forall (fun d => Dispatch.method d = "Owned"%string \/
                   Dispatch.method d = "Outsourced"%string) (schedule r) /\
  ownedUsage r
  = Z.of_nat (length (filter (fun d => Dispatch.method d = "Owned"%string) (schedule r))) /\
  outsourcedUsage r
  = Z.of_nat (length (filter (fun d => Dispatch.method d = "Outsourced"%string) (schedule r))) /\
  ownedUsage r <= fleetSize.
Proof.
  intros Hfleet run r. subst run r. unfold runSimulation.
  set (h := generated geo src numOrders).
  pose proof (allocated_inv h fleetSize) as Hinv.
  rewrite simulate_orders_length, simulate_schedule_length,
    simulate_ownedUsage, simulate_outsourcedUsage.
  repeat split.
  - lia.
  - apply generated_length.
  - rewrite simulate_schedule. apply Forall_lookup. intros k d Hd.
    apply list_lookup_imap_Some in Hd as (o & _ & ->). apply recordAt_method.
  - rewrite <- simulate_ownedUsage. apply (inv_owned_log _ _ _ _ Hinv).
  - rewrite <- simulate_outsourcedUsage. apply (inv_outsourced_log _ _ _ _ Hinv).
  - unfold ownedAfter. lia.
Qed.

Lemma C1_usage_counts_witness :
  0 <= 2 /\
  let run := runSimulation index_tsx sampleDraws 4 2 in
  let r := snd run in
  ownedUsage r + outsourcedUsage r = Z.of_nat (length (fst run)) /\
  length (fst run) = Z.to_nat 4 /\
  length (schedule r) = length (fst run) /\
  Forall (fun d => Dispatch.method d = "Owned"%string \/
                   Dispatch.method d = "Outsourced"%string) (schedule r) /\
  ownedUsage r
  = Z.of_nat (length (filter (fun d => Dispatch.method d = "Owned"%string) (schedule r))) /\
  outsourcedUsage r
  = Z.of_nat (length (filter (fun d => Dispatch.method d = "Outsourced"%string) (schedule r))) /\
  ownedUsage r <= 2.
Proof. split; [lia | apply (C1_usage_counts index_tsx sampleDraws 4 2); lia]. Defined.

(** C2. The allocator visits the sorted sequence in a single pass with a
    counter [availableTrucks] that starts at [fleetSize].  At the visit of
    the order at position [k]: if [availableTrucks > 0] the counter is
    decremented, the status of the order becomes [Assigned], and the entry
    logged has the cost [COST_OWNED_FIXED + distance * COST_OWNED_PER_KM]
    and the next owned-vehicle label (VEH-(k+1)); otherwise the counter is
    unchanged, the status becomes [Outsourced] and the entry has the cost
    [COST_3RD_PARTY_FIXED + distance * COST_3RD_PARTY_PER_KM] and the label
    3RD-PARTY.  The status of the order is [Pending] in every state of the
    loop up to this visit and has the value written by this visit in every
    later state: it changes exactly once and never reverts. *)
Theorem C2_allocation_pass geo src numOrders fleetSize (k : nat) (a : addr) :
  let h := generated geo src numOrders in
  sortedOrdersOf h !! k = Some a ->
  let before := stateAfter h fleetSize k in
  let after := stateAfter h fleetSize (S k) in
  let d := Order.distance (h !!! a) in
  availableTrucks (stateAfter h fleetSize 0) = fleetSize /\
  after = allocStep before a /\
  stateAfter h fleetSize (length h) = allocated h fleetSize /\
  runSimulation geo src numOrders fleetSize
  = ((fun b : addr => heap (allocated h fleetSize) !!! b) <$> sortedOrdersOf h,
     metrics (allocated h fleetSize)) /\
  (0 < availableTrucks before ->
     availableTrucks after = availableTrucks before - 1 /\
     Order.status (heap after !!! a) = Assigned /\
     ownedCount after = Z.of_nat k + 1 /\
     scheduleLog after =
       scheduleLog before ++
       [Dispatch.mk (Order.id (h !!! a)) ("VEH-" +:+ pretty (Z.of_nat k + 1)) "Owned"
          (COST_OWNED_FIXED + inject_Z d * COST_OWNED_PER_KM)%Q d]) /\
  (availableTrucks before <= 0 ->
     availableTrucks after = availableTrucks before /\
     Order.status (heap after !!! a) = Outsourced /\
     scheduleLog after =
       scheduleLog before ++
       [Dispatch.mk (Order.id (h !!! a)) "3RD-PARTY" "Outsourced"
          (COST_3RD_PARTY_FIXED + inject_Z d * COST_3RD_PARTY_PER_KM)%Q d]) /\
  (forall j, (j <= k)%nat ->
     Order.status (heap (stateAfter h fleetSize j) !!! a) = Pending) /\
  (forall j, (k < j)%nat ->
     Order.status (heap (stateAfter h fleetSize j) !!! a)
     = Order.status (heap after !!! a)) /\
  Order.status (heap after !!! a) <> Pending.
Proof.
  intros h Hk before after d.
  assert (Ha : (a < length h)%nat).
  { apply sortedOrdersOf_lt. by eapply list_elem_of_lookup_2. }
  assert (Hklen : (k < length h)%nat).
  { rewrite <- sortedOrdersOf_length. by eapply lookup_lt_Some. }
  assert (Hstep : after = allocStep before a) by (by apply stateAfter_S).
  pose proof (stateAfter_inv h fleetSize k) as Hinv. fold before in Hinv.
  assert (Hlenk : length (take k (sortedOrdersOf h)) = k).
  { rewrite length_take, sortedOrdersOf_length. lia. }
  destruct (sameData_fields _ _ (inv_data _ _ _ _ Hinv a)) as (Hid & _ & Hd).
  assert (Hafter : forall j, (k < j)%nat ->
            Order.status (heap (stateAfter h fleetSize j) !!! a) = statusAt fleetSize k).
  { intros j Hj. unfold stateAfter. apply allocate_status_visited.
    - eapply sublist_NoDup; [apply sortedOrdersOf_NoDup|apply sublist_take].
    - by rewrite lookup_take_lt.
    - done. }
  assert (HS : Order.status (heap after !!! a) = statusAt fleetSize k)
    by (apply Hafter; lia).
  split; [done|]. split; [done|]. split; [apply stateAfter_all|].
  split; [done|].
  split; [|split; [|split; [|split]]].
  - intros Hav. rewrite Hstep, allocStep_owned by done. state_simpl.
    assert (Hown : ownedCount before = Z.of_nat k).
    { rewrite (inv_owned _ _ _ _ Hinv), Hlenk. unfold ownedAfter.
      rewrite (inv_trucks _ _ _ _ Hinv), Hlenk in Hav. unfold ownedAfter in Hav. lia. }
    rewrite list_lookup_total_alter_eq by (by rewrite (inv_length _ _ _ _ Hinv)).
    by rewrite Hown, Hid, Hd.
  - intros Hav. rewrite Hstep, allocStep_outsourced by done. state_simpl.
    rewrite list_lookup_total_alter_eq by (by rewrite (inv_length _ _ _ _ Hinv)).
    by rewrite Hid, Hd.
  - intros j Hj. unfold stateAfter. rewrite allocate_status_unvisited.
    + pose proof (generated_Forall geo src numOrders) as HF.
      apply (Forall_lookup_total_1 _ _ a) in HF; [|done]. apply HF.
    + intros Hin. apply list_elem_of_lookup_1 in Hin as [i Hi].
      apply lookup_take_Some in Hi as [Hi Hij].
      pose proof (NoDup_lookup _ _ _ _ (sortedOrdersOf_NoDup h) Hi Hk). lia.
  - intros j Hj. by rewrite HS, Hafter.
  - rewrite HS. unfold statusAt. by destruct (Z.of_nat k <? fleetSize).
Qed.

Lemma C2_allocation_pass_witness :
  let h := generated index_tsx sampleDraws 6 in
  sortedOrdersOf h !! 1%nat = Some 0%nat /\
  let before := stateAfter h 2 1 in
  let after := stateAfter h 2 2 in
  let d := Order.distance (h !!! 0%nat) in
  availableTrucks (stateAfter h 2 0) = 2 /\
  after = allocStep before 0%nat /\
  stateAfter h 2 (length h) = allocated h 2 /\
  runSimulation index_tsx sampleDraws 6 2
  = ((fun b : addr => heap (allocated h 2) !!! b) <$> sortedOrdersOf h,
     metrics (allocated h 2)) /\
  (0 < availableTrucks before ->
     availableTrucks after = availableTrucks before - 1 /\
     Order.status (heap after !!! 0%nat) = Assigned /\
     ownedCount after = Z.of_nat 1 + 1 /\
     scheduleLog after =
       scheduleLog before ++
       [Dispatch.mk (Order.id (h !!! 0%nat)) ("VEH-" +:+ pretty (Z.of_nat 1 + 1)) "Owned"
          (COST_OWNED_FIXED + inject_Z d * COST_OWNED_PER_KM)%Q d]) /\
  (availableTrucks before <= 0 ->
     availableTrucks after = availableTrucks before /\
     Order.status (heap after !!! 0%nat) = Outsourced /\
     scheduleLog after =
       scheduleLog before ++
       [Dispatch.mk (Order.id (h !!! 0%nat)) "3RD-PARTY" "Outsourced"
          (COST_3RD_PARTY_FIXED + inject_Z d * COST_3RD_PARTY_PER_KM)%Q d]) /\
  (forall j, (j <= 1)%nat ->
     Order.status (heap (stateAfter h 2 j) !!! 0%nat) = Pending) /\
  (forall j, (1 < j)%nat ->
     Order.status (heap (stateAfter h 2 j) !!! 0%nat)
     = Order.status (heap after !!! 0%nat)) /\
  Order.status (heap after !!! 0%nat) <> Pending.
Proof.
  split; [vm_compute; reflexivity|].
  apply (C2_allocation_pass index_tsx sampleDraws 6 2 1 0). vm_compute; reflexivity.
Defined.

(** C3. For every list of orders, the dispatch sequence produced by the
    sorter is an arrangement of the list in which no normal order comes
    before an urgent one and, among orders of equal urgency, distances do
    not increase; the comparator is total, and the sort is stable: the
    orders of one urgency and one distance keep their relative order.  The
    schedule log (and the list of orders returned) follows this sorted
    dispatch order, entry by entry. *)
Theorem C3_dispatch_order (h : list Order.t) (fleetSize : Z) :
  let ds := dispatchSequence h in
  let r := snd (simulate h fleetSize) in
  ds ≡ₚ h /\
  (forall a b, compareOrders a b <= 0 \/ compareOrders b a <= 0) /\
  (forall (i j : nat) a b,
     (i < j)%nat -> ds !! i = Some a -> ds !! j = Some b ->
     ~ (Order.urgency a = Normal /\ Order.urgency b = Urgent) /\
     (Order.urgency a = Order.urgency b -> Order.distance b <= Order.distance a)) /\
  (forall u d,
     filter (fun o => Order.urgency o = u /\ Order.distance o = d) ds
     = filter (fun o => Order.urgency o = u /\ Order.distance o = d) h) /\
  Dispatch.orderId <$> schedule r = Order.id <$> ds /\
  Dispatch.distance <$> schedule r = Order.distance <$> ds /\
  Order.id <$> fst (simulate h fleetSize) = Order.id <$> ds.
Proof.
  intros ds r. subst ds r. rewrite simulate_schedule, simulate_orders.
  rewrite dispatchSequence_sort.
  split; [apply sort_Permutation|]. split; [apply compareOrders_total|].
  split; [|split; [|split; [|split]]].
  - intros i j a b Hij Ha Hb.
    pose proof (sort_sorted compareOrders compareOrders_total compareOrders_trans h) as Hs.
    pose proof (StronglySorted_lookup _ _ _ _ _ _ Hs Hij Ha Hb) as Hab.
    unfold notAfter in Hab. apply compareOrders_le in Hab.
    destruct Hab as [[Hu Hn]|[Hu Hd]];
      (split; [intros [H1 H2]; congruence | intros He; first [exact Hd | congruence]]).
  - intros u d. apply sort_filter. intros b c [Hb1 Hb2] [Hc1 Hc2].
    apply compareOrders_le. right. split; [congruence|lia].
  - apply list_eq. intros i. rewrite !list_lookup_fmap, list_lookup_imap.
    destruct (sort compareOrders h !! i) as [o|]; [|done]. simpl.
    unfold recordAt. by destruct (Z.of_nat i <? fleetSize).
  - apply list_eq. intros i. rewrite !list_lookup_fmap, list_lookup_imap.
    destruct (sort compareOrders h !! i) as [o|]; [|done]. simpl.
    unfold recordAt. by destruct (Z.of_nat i <? fleetSize).
  - apply list_eq. intros i. rewrite !list_lookup_fmap, list_lookup_imap.
    by destruct (sort compareOrders h !! i) as [o|].
Qed.

Lemma C3_dispatch_order_witness :
  let ds := dispatchSequence scenario in
  (0 < 2)%nat /\
  ds !! 0%nat = Some (scenarioOrder 1 Urgent 80) /\
  ds !! 2%nat = Some (scenarioOrder 2 Normal 30) /\
  ~ (Order.urgency (scenarioOrder 1 Urgent 80) = Normal /\
     Order.urgency (scenarioOrder 2 Normal 30) = Urgent) /\
  (Order.urgency (scenarioOrder 1 Urgent 80) = Order.urgency (scenarioOrder 2 Normal 30) ->
   Order.distance (scenarioOrder 2 Normal 30) <= Order.distance (scenarioOrder 1 Urgent 80)).
Proof.
  intros ds.
  assert (H0 : ds !! 0%nat = Some (scenarioOrder 1 Urgent 80)) by (vm_compute; reflexivity).
  assert (H2 : ds !! 2%nat = Some (scenarioOrder 2 Normal 30)) by (vm_compute; reflexivity).
  split; [lia|]. split; [exact H0|]. split; [exact H2|].
  destruct (C3_dispatch_order scenario 2) as (_ & _ & Hsorted & _).
  apply (Hsorted 0%nat 2%nat); [lia|exact H0|exact H2].
Defined.

(** *** Runs without orders *)

Lemma generated_nil geo src numOrders :
  numOrders <= 0 -> generated geo src numOrders = [].
Proof.
  intros Hn. apply nil_length_inv. rewrite generated_length. lia.
Qed.

(** Without orders the loop body never runs: the result is computed from
    the initial values of the locals. *)
Lemma simulate_nil fleetSize :
  simulate [] fleetSize = ([], metrics (initState fleetSize [])).
Proof. reflexivity. Qed.

Lemma metrics_initState_zero fleetSize h :
  let r := metrics (initState fleetSize h) in
  schedule r = [] /\ totalCost r = 0%Q /\ ownedUsage r = 0 /\ outsourcedUsage r = 0 /\
  totalKm r = 0 /\ (manualCostEst r == 0)%Q /\ (savings r == 0)%Q /\ (co2 r == 0)%Q.
Proof. simpl. repeat split; reflexivity. Qed.

Lemma statusAt_owned fleetSize (k : nat) :
  Z.of_nat k < fleetSize -> statusAt fleetSize k = Assigned.
Proof. intros Hk. unfold statusAt. by apply Z.ltb_lt in Hk as ->. Qed.

Lemma statusAt_outsourced fleetSize (k : nat) :
  fleetSize <= Z.of_nat k -> statusAt fleetSize k = Outsourced.
Proof. intros Hk. unfold statusAt. by apply Z.ltb_ge in Hk as ->. Qed.

(** C4. Boundary behaviour of a run.  With [numOrders = 0] there is no
    order, the schedule log is empty and all aggregates are zero.  With
    [fleetSize = 0] every one of the [numOrders] orders ends with status
    [Outsourced], its log entry is an outsourced one for the third party,
    [ownedUsage = 0] and [outsourcedUsage] is the number of orders
    ([numOrders], or 0 when that is negative).  With [fleetSize >=
    numOrders] no order is outsourced: every order ends [Assigned] with an
    owned entry in the log, [outsourcedUsage = 0] and [ownedUsage] is the
    number of orders. *)
Theorem C4_boundaries geo src numOrders fleetSize :
  let run := runSimulation geo src numOrders fleetSize in
  let r := snd run in
  (numOrders = 0 ->
     fst run = [] /\ schedule r = [] /\ totalCost r = 0%Q /\ ownedUsage r = 0 /\
     outsourcedUsage r = 0 /\ totalKm r = 0 /\ (manualCostEst r == 0)%Q /\
     (savings r == 0)%Q /\ (co2 r == 0)%Q) /\
  (fleetSize = 0 ->
     length (fst run) = Z.to_nat numOrders /\
     Forall (fun o => Order.status o = Outsourced) (fst run) /\
     length (schedule r) = Z.to_nat numOrders /\
     Forall (fun d => Dispatch.method d = "Outsourced"%string /\
                      Dispatch.vehicleId d = "3RD-PARTY"%string) (schedule r) /\
     ownedUsage r = 0 /\
     outsourcedUsage r = Z.max 0 numOrders) /\
  (numOrders <= fleetSize ->
     length (fst run) = Z.to_nat numOrders /\
     Forall (fun o => Order.status o = Assigned) (fst run) /\
     length (schedule r) = Z.to_nat numOrders /\
     Forall (fun d => Dispatch.method d = "Owned"%string) (schedule r) /\
     outsourcedUsage r = 0 /\
     ownedUsage r = Z.max 0 numOrders).
Proof.
  intros run r. subst run r. unfold runSimulation.
  set (h := generated geo src numOrders).
  assert (Hlen : length h = Z.to_nat numOrders) by apply generated_length.
  split; [|split].
  - intros Hn. subst h. rewrite generated_nil by lia. rewrite simulate_nil.
    split; [done|]. apply metrics_initState_zero.
  - intros ->. split; [by rewrite simulate_orders_length|]. split; [|split; [|split; [|split]]].
    + rewrite simulate_orders. apply Forall_lookup. intros k o Ho.
      apply list_lookup_imap_Some in Ho as (o' & _ & ->). simpl.
      apply statusAt_outsourced. lia.
    + by rewrite simulate_schedule_length.
    + rewrite simulate_schedule. apply Forall_lookup. intros k d Hd.
      apply list_lookup_imap_Some in Hd as (o & _ & ->). unfold recordAt.
      destruct (Z.of_nat k <? 0) eqn:E; [apply Z.ltb_lt in E; lia|done].
    + rewrite simulate_ownedUsage. unfold ownedAfter. lia.
    + rewrite simulate_outsourcedUsage. unfold ownedAfter. lia.
  - intros Hle. split; [by rewrite simulate_orders_length|]. split; [|split; [|split; [|split]]].
    + rewrite simulate_orders. apply Forall_lookup. intros k o Ho.
      apply list_lookup_imap_Some in Ho as (o' & Hk & ->). simpl.
      apply lookup_lt_Some in Hk. rewrite dispatchSequence_length in Hk.
      apply statusAt_owned. lia.
    + by rewrite simulate_schedule_length.
    + rewrite simulate_schedule. apply Forall_lookup. intros k d Hd.
      apply list_lookup_imap_Some in Hd as (o & Hk & ->). unfold recordAt.
      apply lookup_lt_Some in Hk. rewrite dispatchSequence_length in Hk.
      destruct (Z.of_nat k <? fleetSize) eqn:E; [done|apply Z.ltb_ge in E; lia].
    + rewrite simulate_outsourcedUsage. unfold ownedAfter. lia.
    + rewrite simulate_ownedUsage. unfold ownedAfter. lia.
Qed.

Lemma C4_boundaries_witness :
  (0 = 0 /\
   let run := runSimulation index_tsx sampleDraws 0 5 in
   let r := snd run in
   fst run = [] /\ schedule r = [] /\ totalCost r = 0%Q /\ ownedUsage r = 0 /\
   outsourcedUsage r = 0 /\ totalKm r = 0 /\ (manualCostEst r == 0)%Q /\
   (savings r == 0)%Q /\ (co2 r == 0)%Q) /\
  (0 = 0 /\
   let run := runSimulation index_tsx sampleDraws 6 0 in
   let r := snd run in
   length (fst run) = Z.to_nat 6 /\
   Forall (fun o => Order.status o = Outsourced) (fst run) /\
   length (schedule r) = Z.to_nat 6 /\
   Forall (fun d => Dispatch.method d = "Outsourced"%string /\
                    Dispatch.vehicleId d = "3RD-PARTY"%string) (schedule r) /\
   ownedUsage r = 0 /\
   outsourcedUsage r = Z.max 0 6) /\
  (3 <= 5 /\
   let run := runSimulation index_tsx sampleDraws 3 5 in
   let r := snd run in
   length (fst run) = Z.to_nat 3 /\
   Forall (fun o => Order.status o = Assigned) (fst run) /\
   length (schedule r) = Z.to_nat 3 /\
   Forall (fun d => Dispatch.method d = "Owned"%string) (schedule r) /\
   outsourcedUsage r = 0 /\
   ownedUsage r = Z.max 0 3).
Proof.
  split; [|split].
  - split; [reflexivity|]. apply (C4_boundaries index_tsx sampleDraws 0 5). reflexivity.
  - split; [reflexivity|]. apply (C4_boundaries index_tsx sampleDraws 6 0). reflexivity.
  - split; [lia|]. apply (C4_boundaries index_tsx sampleDraws 3 5). lia.
Defined.

(** C5. For every run the reported aggregates are the sums over the
    schedule log: [totalCost] is the sum of the costs of the entries,
    [totalKm] the sum of their distances (both accumulated in log order,
    as the loop does), and [co2 = totalKm * CO2_PER_KM]. *)
Theorem C5_aggregates geo src numOrders fleetSize :
  let r := snd (runSimulation geo src numOrders fleetSize) in
  totalCost r = sumQ (Dispatch.cost <$> schedule r) /\
  totalKm r = sumZ (Dispatch.distance <$> schedule r) /\
  co2 r = (inject_Z (totalKm r) * CO2_PER_KM)%Q.
Proof.
  intros r. subst r. unfold runSimulation.
  split; [apply simulate_totalCost|]. split; [apply simulate_totalKm|]. reflexivity.
Qed.

(** *** The costs of the entries *)

Lemma recordAt_cost_nonneg fleetSize k o :
  0 <= Order.distance o -> (0 <= Dispatch.cost (recordAt fleetSize k o))%Q.
Proof.
  intros Hd. rewrite Zle_Qle in Hd. change (inject_Z 0) with 0%Q in Hd.
  unfold recordAt, COST_OWNED_FIXED, COST_OWNED_PER_KM, COST_3RD_PARTY_FIXED,
    COST_3RD_PARTY_PER_KM.
  destruct (Z.of_nat k <? fleetSize); simpl; nra.
Qed.

Lemma dispatchSequence_Forall (P : Order.t -> Prop) h :
  Forall P h -> Forall P (dispatchSequence h).
Proof.
  intros Hh. rewrite dispatchSequence_sort. by rewrite sort_Permutation.
Qed.

Lemma simulate_costs_nonneg h fleetSize :
  Forall (fun o => 0 <= Order.distance o) h ->
  Forall (fun d => (0 <= Dispatch.cost d)%Q) (schedule (snd (simulate h fleetSize))).
Proof.
  intros Hh. rewrite simulate_schedule. apply Forall_lookup. intros k d Hd.
  apply list_lookup_imap_Some in Hd as (o & Ho & ->).
  apply recordAt_cost_nonneg.
  pose proof (dispatchSequence_Forall _ _ Hh) as Hds.
  rewrite Forall_lookup in Hds. by apply (Hds k o).
Qed.

(** C6. For every run, [manualCostEst = totalCost * 1.153] (the manual
    inflation factor), [savings = manualCostEst - totalCost], and, the
    factor being greater than 1, [savings >= 0] when no entry of the
    schedule has a negative cost; the same holds for any other factor
    greater than 1.  With a non-negative distance offset, as in both
    source files, no entry has a negative cost. *)
Theorem C6_savings geo src numOrders fleetSize :
  let r := snd (runSimulation geo src numOrders fleetSize) in
  manualCostEst r = (totalCost r * 1.153)%Q /\
  savings r = (manualCostEst r - totalCost r)%Q /\
  (1 < 1.153)%Q /\
  (Forall (fun d => (0 <= Dispatch.cost d)%Q) (schedule r) ->
   (0 <= savings r)%Q /\
   forall factor : Q, (1 < factor)%Q -> (0 <= totalCost r * factor - totalCost r)%Q) /\
  (0 <= KM_OFFSET geo -> Forall (fun d => (0 <= Dispatch.cost d)%Q) (schedule r)).
Proof.
  intros r. subst r. unfold runSimulation.
  set (h := generated geo src numOrders).
  split; [reflexivity|]. split; [reflexivity|]. split; [reflexivity|]. split.
  - intros Hcost.
    assert (Htot : (0 <= totalCost (snd (simulate h fleetSize)))%Q).
    { rewrite simulate_totalCost. apply sumQ_nonneg.
      apply Forall_fmap. exact Hcost. }
    split.
    + change (savings (snd (simulate h fleetSize)))
        with (totalCost (snd (simulate h fleetSize)) * 1.153
              - totalCost (snd (simulate h fleetSize)))%Q.
      apply savings_nonneg; [reflexivity|exact Htot].
    + intros factor Hf. by apply savings_nonneg.
  - intros Hoff. apply simulate_costs_nonneg.
    eapply Forall_impl; [apply generated_Forall|]. intros o [_ Hd]. simpl in Hd. lia.
Qed.

Lemma C6_savings_witness :
  let r := snd (runSimulation index_tsx sampleDraws 3 1) in
  Forall (fun d => (0 <= Dispatch.cost d)%Q) (schedule r) /\
  (0 <= savings r)%Q /\
  (1 < 2)%Q /\
  (0 <= totalCost r * 2 - totalCost r)%Q.
Proof.
  intros r.
  assert (Hcost : Forall (fun d => (0 <= Dispatch.cost d)%Q) (schedule r)).
  { vm_compute. repeat (constructor; [discriminate|]). constructor. }
  destruct (C6_savings index_tsx sampleDraws 3 1) as (_ & _ & _ & Hs & _).
  destruct (Hs Hcost) as [Hsav Hfac].
  split; [exact Hcost|]. split; [exact Hsav|]. split; [reflexivity|].
  apply Hfac. reflexivity.
Defined.

(** *** Negative inputs *)






(** C8. When there are no orders (the order count is zero, or negative),
    every aggregate of the result is zero: [totalCost], [totalKm], [co2],
    [manualCostEst] and [savings], and both usage counters.  Each of them is
    a number; the engine computes them with additions, multiplications and
    one subtraction, and divides nowhere. *)
Theorem C8_zero_orders geo src numOrders fleetSize :
  numOrders <= 0 ->
  let run := runSimulation geo src numOrders fleetSize in
  let r := snd run in
  fst run = [] /\ schedule r = [] /\
  totalCost r = 0%Q /\ totalKm r = 0 /\ (co2 r == 0)%Q /\
  (manualCostEst r == 0)%Q /\ (savings r == 0)%Q /\
  ownedUsage r = 0 /\ outsourcedUsage r = 0.
Proof.
  intros Hn run r. subst run r. unfold runSimulation.
  rewrite generated_nil by done. rewrite simulate_nil. cbn [fst snd].
  pose proof (metrics_initState_zero fleetSize []) as H. cbv zeta in H.
  destruct H as (? & ? & ? & ? & ? & ? & ? & ?). repeat split; done.
Qed.

Lemma C8_zero_orders_witness :
  0 <= 0 /\
  let run := runSimulation index_tsx sampleDraws 0 30 in
  let r := snd run in
  fst run = [] /\ schedule r = [] /\
  totalCost r = 0%Q /\ totalKm r = 0 /\ (co2 r == 0)%Q /\
  (manualCostEst r == 0)%Q /\ (savings r == 0)%Q /\
  ownedUsage r = 0 /\ outsourcedUsage r = 0.
Proof. split; [lia | apply (C8_zero_orders index_tsx sampleDraws 0 30); lia]. Defined.

(** C9, as the program has it.  For every positive [numOrders] below
    2^32 and every source of random draws, the generator returns exactly
    [numOrders] orders; the order of index [i] has the identifier
    ORD-(1000 + i), and each order has the status [Pending] and a distance
    of at least the distance offset of the formula (50 in [index.tsx], 40
    in [YunfengDashboard.tsx]), hence not negative.  For [numOrders <= 0]
    the generator returns the empty list, not an error.  From 2^32 on it
    returns no orders: [Array.from] throws a [RangeError]. *)
Theorem C9_generator geo src numOrders :
  (0 < numOrders < 2 ^ 32 ->
     exists orders,
       fst (generateOrders geo numOrders src 0%nat) = inr orders /\
       Z.of_nat (length orders) = numOrders /\
       Order.id <$> orders
       = (fun i : nat => "ORD-" +:+ pretty (1000 + Z.of_nat i)) <$> seq 0 (Z.to_nat numOrders) /\
       Forall (fun o => Order.status o = Pending /\ KM_OFFSET geo <= Order.distance o)
              orders /\
       (0 <= KM_OFFSET geo -> Forall (fun o => 0 <= Order.distance o) orders)) /\
  KM_OFFSET index_tsx = 50 /\ KM_OFFSET YunfengDashboard_tsx = 40 /\
  (numOrders <= 0 -> fst (generateOrders geo numOrders src 0%nat) = inr []) /\
  (2 ^ 32 <= numOrders ->
     fst (generateOrders geo numOrders src 0%nat) = inl RangeError).
Proof.
  split; [|split; [|split; [|split]]].
  - intros Hn. exists (generated geo src numOrders).
    rewrite generateOrders_returns by (unfold MAX_ARRAY_LENGTH; lia).
    split; [done|]. split; [rewrite generated_length; lia|].
    split; [apply generated_ids|]. split; [apply generated_Forall|].
    intros Hoff. eapply Forall_impl; [apply generated_Forall|].
    intros o [_ Hd]. simpl in Hd. lia.
  - reflexivity.
  - reflexivity.
  - intros Hn. rewrite generateOrders_returns by (unfold MAX_ARRAY_LENGTH; lia).
    cbn [fst]. by rewrite generated_nil.
  - intros Hn. by rewrite generateOrders_throws by (unfold MAX_ARRAY_LENGTH; lia).
Qed.

Lemma C9_generator_witness :
  (0 < 6 < 2 ^ 32 /\ 0 <= KM_OFFSET index_tsx /\
   exists orders,
     fst (generateOrders index_tsx 6 sampleDraws 0%nat) = inr orders /\
     Z.of_nat (length orders) = 6 /\
     Order.id <$> orders
     = (fun i : nat => "ORD-" +:+ pretty (1000 + Z.of_nat i)) <$> seq 0 (Z.to_nat 6) /\
     Forall (fun o => Order.status o = Pending /\ KM_OFFSET index_tsx <= Order.distance o)
            orders /\
     Forall (fun o => 0 <= Order.distance o) orders) /\
  (-1 <= 0 /\ fst (generateOrders index_tsx (-1) sampleDraws 0%nat) = inr []) /\
  (2 ^ 32 <= 2 ^ 32 + 5 /\
   fst (generateOrders index_tsx (2 ^ 32 + 5) sampleDraws 0%nat) = inl RangeError).
Proof.
  assert (Hn : 0 < 6 < 2 ^ 32) by lia.
  assert (Hoff : 0 <= KM_OFFSET index_tsx) by (vm_compute; discriminate).
  split; [|split].
  - split; [exact Hn|]. split; [exact Hoff|].
    destruct (C9_generator index_tsx sampleDraws 6) as (H & _).
    destruct (H Hn) as (orders & Hr & Hl & Hid & HF & Hnn).
    exists orders. split; [exact Hr|]. split; [exact Hl|]. split; [exact Hid|].
    split; [exact HF|exact (Hnn Hoff)].
  - split; [lia|]. apply (C9_generator index_tsx sampleDraws (-1)). lia.
  - split; [lia|]. apply (C9_generator index_tsx sampleDraws (2 ^ 32 + 5)). lia.
Defined.

(** C9 as stated fails: asked for 2^32 orders, a positive order count, the
    generator returns no list of 2^32 orders; it throws a [RangeError]. *)
Lemma C9_counterexample :
  0 < 2 ^ 32 /\
  fst (generateOrders index_tsx (2 ^ 32) sampleDraws 0%nat) = inl RangeError /\
  ~ exists orders,
      fst (generateOrders index_tsx (2 ^ 32) sampleDraws 0%nat) = inr orders /\
      Z.of_nat (length orders) = 2 ^ 32.
Proof.
  assert (H : fst (generateOrders index_tsx (2 ^ 32) sampleDraws 0%nat) = inl RangeError)
    by (vm_compute; reflexivity).
  split; [lia|]. split; [exact H|].
  intros (orders & Hr & _). rewrite H in Hr. discriminate.
Qed.

(** *** The labels of the owned vehicles *)

Lemma vehicle_label_inj : Inj (=) (=) (fun i : Z => "VEH-" +:+ pretty i).
Proof.
  intros i j H. apply (inj (String.app "VEH-")) in H. by apply (inj pretty) in H.
Qed.

(** C10. For every run with a non-negative [fleetSize], [ownedUsage] is
    the minimum of [fleetSize] and the number of orders (which is
    [numOrders] when that is not negative).  The orders at the first
    [ownedUsage] positions of the dispatch sequence are assigned to owned
    vehicles, with the labels VEH-1, ..., VEH-[ownedUsage] in this order,
    which are pairwise distinct; every later order is outsourced with the
    label 3RD-PARTY. *)
Theorem C10_owned_prefix geo src numOrders fleetSize :
  0 <= fleetSize ->
  let run := runSimulation geo src numOrders fleetSize in
  let r := snd run in
  let n := length (schedule r) in
  let m := Z.to_nat (ownedUsage r) in
  n = Z.to_nat numOrders /\
  length (fst run) = n /\
  Order.setStatus Pending <$> fst run = dispatchSequence (generated geo src numOrders) /\
  ownedUsage r = Z.min fleetSize (Z.of_nat n) /\
  (0 <= numOrders -> ownedUsage r = Z.min fleetSize numOrders) /\
  (forall (k : nat) d o,
     schedule r !! k = Some d -> fst run !! k = Some o ->
     Dispatch.orderId d = Order.id o /\
     if decide (k < m)%nat
     then Dispatch.vehicleId d = "VEH-" +:+ pretty (Z.of_nat k + 1) /\
          Dispatch.method d = "Owned"%string /\ Order.status o = Assigned
     else Dispatch.vehicleId d = "3RD-PARTY"%string /\
          Dispatch.method d = "Outsourced"%string /\ Order.status o = Outsourced) /\
  Dispatch.vehicleId <$> take m (schedule r)
  = (fun i : Z => "VEH-" +:+ pretty i) <$> seqZ 1 (ownedUsage r) /\
  NoDup (Dispatch.vehicleId <$> take m (schedule r)).
Proof.
  intros Hfleet run r n m. subst run r n m. unfold runSimulation.
  set (h := generated geo src numOrders).
  assert (Hlen : length h = Z.to_nat numOrders) by apply generated_length.
  rewrite simulate_schedule_length, simulate_orders_length, simulate_ownedUsage.
  assert (Hown : ownedAfter fleetSize (length h) = Z.min fleetSize (Z.of_nat (length h)))
    by (unfold ownedAfter; lia).
  assert (Hlabels :
    Dispatch.vehicleId <$> take (Z.to_nat (ownedAfter fleetSize (length h)))
                                (schedule (snd (simulate h fleetSize)))
    = (fun i : Z => "VEH-" +:+ pretty i) <$> seqZ 1 (ownedAfter fleetSize (length h))).
  { rewrite simulate_schedule. apply list_eq. intros i.
    rewrite !list_lookup_fmap.
    destruct (decide (i < Z.to_nat (ownedAfter fleetSize (length h)))%nat) as [Hi|Hi].
    - rewrite lookup_take_lt, list_lookup_imap by done.
      rewrite lookup_seqZ_lt by lia.
      destruct (dispatchSequence h !! i) as [o|] eqn:Ho.
      + simpl. unfold recordAt.
        destruct (Z.of_nat i <? fleetSize) eqn:E; [|apply Z.ltb_ge in E; lia].
        simpl. by rewrite (Z.add_comm 1).
      + apply lookup_ge_None in Ho. rewrite dispatchSequence_length in Ho. lia.
    - rewrite lookup_take_ge, lookup_seqZ_ge by lia. done. }
  split; [done|]. split; [done|]. split.
  { rewrite simulate_orders. apply list_eq. intros i.
    rewrite list_lookup_fmap, list_lookup_imap.
    destruct (dispatchSequence h !! i) as [o|] eqn:Ho; [|done]. simpl. f_equal.
    pose proof (dispatchSequence_Forall _ _ (generated_Forall geo src numOrders)) as HF.
    rewrite Forall_lookup in HF. destruct (HF i o Ho) as [HP _].
    destruct o. simpl in HP. by subst. }
  split; [done|]. split; [lia|].
  split; [|split; [done|]].
  - intros k d o Hd Ho.
    rewrite simulate_schedule in Hd. rewrite simulate_orders in Ho.
    apply list_lookup_imap_Some in Hd as (o1 & Hk & ->).
    apply list_lookup_imap_Some in Ho as (o2 & Hk2 & ->).
    assert (o2 = o1) as -> by congruence.
    apply lookup_lt_Some in Hk. rewrite dispatchSequence_length in Hk.
    split; [unfold recordAt; by destruct (Z.of_nat k <? fleetSize)|].
    case_decide as Hkm.
    + rewrite statusAt_owned by lia. unfold recordAt.
      destruct (Z.of_nat k <? fleetSize) eqn:E; [done|apply Z.ltb_ge in E; lia].
    + rewrite statusAt_outsourced by lia. unfold recordAt.
      destruct (Z.of_nat k <? fleetSize) eqn:E; [apply Z.ltb_lt in E; lia|done].
  - rewrite Hlabels. apply (NoDup_fmap_2 _), NoDup_seqZ.
Qed.

Lemma C10_owned_prefix_witness :
  0 <= 2 /\
  let run := runSimulation index_tsx sampleDraws 6 2 in
  let r := snd run in
  ownedUsage r = 2 /\
  Dispatch.vehicleId <$> schedule r
  = ["VEH-1"; "VEH-2"; "3RD-PARTY"; "3RD-PARTY"; "3RD-PARTY"; "3RD-PARTY"]%string /\
  Order.status <$> fst run
  = [Assigned; Assigned; Outsourced; Outsourced; Outsourced; Outsourced] /\
  NoDup (Dispatch.vehicleId <$> take (Z.to_nat (ownedUsage r)) (schedule r)).
Proof.
  split; [lia|]. intros run r.
  assert (Hfleet : 0 <= 2) by lia.
  destruct (C10_owned_prefix index_tsx sampleDraws 6 2 Hfleet)
    as (_ & _ & _ & _ & _ & _ & _ & Hnd).
  split; [vm_compute; reflexivity|].
  split; [vm_compute; reflexivity|]. split; [vm_compute; reflexivity|]. exact Hnd.
Defined.

(** * Further properties of the engine *)

(** ** Identifiers *)

Lemma generated_ids_NoDup geo src numOrders :
  NoDup (Order.id <$> generated geo src numOrders).
Proof.
  rewrite generated_ids. apply (NoDup_fmap_2 _ (Inj0 := order_label_inj)), NoDup_seq.
Qed.

Lemma simulate_order_ids h fleetSize :
  Order.id <$> fst (simulate h fleetSize) = Order.id <$> dispatchSequence h.
Proof.
  rewrite simulate_orders. apply list_eq. intros i.
  rewrite !list_lookup_fmap, list_lookup_imap.
  by destruct (dispatchSequence h !! i).
Qed.

Lemma simulate_schedule_ids h fleetSize :
  Dispatch.orderId <$> schedule (snd (simulate h fleetSize))
  = Order.id <$> dispatchSequence h.
Proof.
  rewrite simulate_schedule. apply list_eq. intros i.
  rewrite !list_lookup_fmap, list_lookup_imap.
  destruct (dispatchSequence h !! i) as [o|]; [|done]. simpl.
  unfold recordAt. by destruct (Z.of_nat i <? fleetSize).
Qed.

Lemma dispatchSequence_Permutation h : dispatchSequence h ≡ₚ h.
Proof. rewrite dispatchSequence_sort. apply sort_Permutation. Qed.

(** The identifiers of the orders of a run are pairwise distinct, in the
    list of orders returned and in the schedule log; so are the React keys
    of the circles ([order.id]) and of the lines ([line-] and the id) that
    the map draws for them. *)
Theorem order_keys_distinct geo src numOrders fleetSize :
  let run := runSimulation geo src numOrders fleetSize in
  NoDup (Order.id <$> fst run) /\
  NoDup (Dispatch.orderId <$> schedule (snd run)) /\
  NoDup (Marker.key <$> orderMarkers (fst run)) /\
  NoDup (Route.key <$> orderRoutes geo (fst run)).
Proof.
  intros run. subst run. unfold runSimulation.
  set (h := generated geo src numOrders).
  assert (Hids : NoDup (Order.id <$> fst (simulate h fleetSize))).
  { rewrite simulate_order_ids, dispatchSequence_Permutation.
    apply generated_ids_NoDup. }
  split; [done|]. split; [|split].
  - rewrite simulate_schedule_ids, dispatchSequence_Permutation.
    apply generated_ids_NoDup.
  - unfold orderMarkers. rewrite <- list_fmap_compose. exact Hids.
  - unfold orderRoutes. rewrite <- list_fmap_compose.
    change (NoDup ((String.app "line-" ∘ Order.id) <$> fst (simulate h fleetSize))).
    rewrite list_fmap_compose. by apply (NoDup_fmap_2 _).
Qed.

(** ** Distance and emissions do not depend on the fleet *)

Lemma sumZ_Permutation l l' : l ≡ₚ l' -> sumZ l = sumZ l'.
Proof.
  induction 1 as [|z l l' _ IH|y z l|l1 l2 l3 _ IH1 _ IH2].
  - done.
  - by rewrite !sumZ_cons, IH.
  - rewrite !sumZ_cons. lia.
  - by rewrite IH1.
Qed.

Lemma simulate_schedule_distances h fleetSize :
  Dispatch.distance <$> schedule (snd (simulate h fleetSize))
  = Order.distance <$> dispatchSequence h.
Proof.
  rewrite simulate_schedule. apply list_eq. intros i.
  rewrite !list_lookup_fmap, list_lookup_imap.
  destruct (dispatchSequence h !! i) as [o|]; [|done]. simpl.
  unfold recordAt. by destruct (Z.of_nat i <? fleetSize).
Qed.

(** For every list of orders and every fleet size, [totalKm] is the sum of
    the distances of the orders as generated and [co2] is that sum times
    [CO2_PER_KM]: neither depends on the fleet size, nor on the dispatch
    order. *)
Theorem totalKm_fleet_independent (h : list Order.t) (fleetSize : Z) :
  let r := snd (simulate h fleetSize) in
  totalKm r = sumZ (Order.distance <$> h) /\
  co2 r = (inject_Z (sumZ (Order.distance <$> h)) * CO2_PER_KM)%Q /\
  forall fleetSize', totalKm (snd (simulate h fleetSize')) = totalKm r /\
                     co2 (snd (simulate h fleetSize')) = co2 r.
Proof.
  assert (Hkm : forall f, totalKm (snd (simulate h f)) = sumZ (Order.distance <$> h)).
  { intros f. rewrite simulate_totalKm, simulate_schedule_distances.
    apply sumZ_Permutation. by rewrite dispatchSequence_Permutation. }
  assert (Hco2 : forall f, co2 (snd (simulate h f))
                           = (inject_Z (totalKm (snd (simulate h f))) * CO2_PER_KM)%Q)
    by reflexivity.
  intros r. subst r. split; [apply Hkm|]. split; [by rewrite Hco2, Hkm|].
  intros f'. split; [by rewrite !Hkm|by rewrite !Hco2, !Hkm].
Qed.

(** ** The total cost *)

Lemma sumQ_le l l' : Forall2 Qle l l' -> (sumQ l <= sumQ l')%Q.
Proof.
  induction 1 as [|q q' l l' Hq _ IH]; [apply Qle_refl|].
  rewrite !sumQ_cons. lra.
Qed.

(** An owned vehicle is the cheaper one for every order that is not more
    than 3400 km behind the port. *)
Lemma recordAt_cost_mono fleetSize fleetSize' k o :
  fleetSize <= fleetSize' -> -3400 <= Order.distance o ->
  (Dispatch.cost (recordAt fleetSize' k o) <= Dispatch.cost (recordAt fleetSize k o))%Q.
Proof.
  intros Hf Hd. rewrite Zle_Qle in Hd.
  unfold recordAt, COST_OWNED_FIXED, COST_OWNED_PER_KM, COST_3RD_PARTY_FIXED,
    COST_3RD_PARTY_PER_KM.
  destruct (Z.of_nat k <? fleetSize) eqn:E1, (Z.of_nat k <? fleetSize') eqn:E2;
    simpl; try lra.
  - apply Z.ltb_lt in E1. apply Z.ltb_ge in E2. lia.
  - change (inject_Z (-3400)) with (-3400)%Q in Hd. lra.
Qed.

(** With the same orders, a larger fleet never costs more: [totalCost]
    and [savings] do not increase with [fleetSize], [ownedUsage] does not
    decrease and [outsourcedUsage] does not increase (no distance being
    negative). *)
Theorem totalCost_fleet_monotone (h : list Order.t) (fleetSize fleetSize' : Z) :
  Forall (fun o => 0 <= Order.distance o) h ->
  fleetSize <= fleetSize' ->
  let r := snd (simulate h fleetSize) in
  let r' := snd (simulate h fleetSize') in
  (totalCost r' <= totalCost r)%Q /\
  (savings r' <= savings r)%Q /\
  ownedUsage r <= ownedUsage r' /\
  outsourcedUsage r' <= outsourcedUsage r.
Proof.
  intros Hh Hf r r'. subst r r'.
  assert (Hcost : (totalCost (snd (simulate h fleetSize'))
                   <= totalCost (snd (simulate h fleetSize)))%Q).
  { rewrite !simulate_totalCost, !simulate_schedule. apply sumQ_le.
    apply Forall2_fmap, Forall2_same_length_lookup_2.
    - by rewrite !length_imap.
    - intros i d' d Hd' Hd.
      apply list_lookup_imap_Some in Hd' as (o' & Ho' & ->).
      apply list_lookup_imap_Some in Hd as (o & Ho & ->).
      assert (o' = o) as -> by congruence.
      apply recordAt_cost_mono; [done|].
      pose proof (dispatchSequence_Forall _ _ Hh) as Hds.
      rewrite Forall_lookup in Hds. specialize (Hds i o Ho). simpl in Hds. lia. }
  split; [exact Hcost|]. split.
  - change (savings (snd (simulate h fleetSize')))
      with (totalCost (snd (simulate h fleetSize')) * 1.153
            - totalCost (snd (simulate h fleetSize')))%Q.
    change (savings (snd (simulate h fleetSize)))
      with (totalCost (snd (simulate h fleetSize)) * 1.153
            - totalCost (snd (simulate h fleetSize)))%Q.
    lra.
  - rewrite !simulate_ownedUsage, !simulate_outsourcedUsage. unfold ownedAfter. lia.
Qed.

Lemma totalCost_fleet_monotone_witness :
  Forall (fun o => 0 <= Order.distance o) scenario /\
  2 <= 3 /\
  let r := snd (simulate scenario 2) in
  let r' := snd (simulate scenario 3) in
  (totalCost r' <= totalCost r)%Q /\
  (savings r' <= savings r)%Q /\
  ownedUsage r <= ownedUsage r' /\
  outsourcedUsage r' <= outsourcedUsage r.
Proof.
  assert (Hh : Forall (fun o => 0 <= Order.distance o) scenario).
  { repeat (constructor; [vm_compute; discriminate|]). constructor. }
  split; [exact Hh|]. split; [lia|].
  apply (totalCost_fleet_monotone scenario 2 3 Hh). lia.
Defined.

Lemma recordAt_priced fleetSize k o : entryPriced (recordAt fleetSize k o).
Proof. unfold entryPriced, recordAt. destruct (Z.of_nat k <? fleetSize); auto. Qed.

Lemma entriesOf_snoc method log d :
  entriesOf method (log ++ [d])
  = entriesOf method log ++ (if decide (Dispatch.method d = method) then [d] else []).
Proof.
  unfold entriesOf. rewrite filter_app, filter_cons, filter_nil. by case_decide.
Qed.

Lemma kmOf_snoc method log d :
  kmOf method (log ++ [d])
  = kmOf method log + (if decide (Dispatch.method d = method) then Dispatch.distance d else 0).
Proof.
  unfold kmOf. rewrite entriesOf_snoc, fmap_app. case_decide.
  - apply sumZ_snoc.
  - rewrite app_nil_r. lia.
Qed.

Lemma sumZ_fmap_snoc {A} (f : A -> Z) l a :
  sumZ (f <$> l ++ [a]) = sumZ (f <$> l) + f a.
Proof. rewrite fmap_app. apply sumZ_snoc. Qed.

Lemma sumQ_fmap_snoc {A} (f : A -> Q) l a :
  sumQ (f <$> l ++ [a]) = (sumQ (f <$> l) + f a)%Q.
Proof. rewrite fmap_app. apply sumQ_snoc. Qed.

Lemma log_km_split log :
  Forall entryPriced log ->
  sumZ (Dispatch.distance <$> log) = kmOf "Owned" log + kmOf "Outsourced" log.
Proof.
  induction log as [|d log IH] using rev_ind; intros Hlog; [done|].
  apply Forall_app in Hlog as [Hlog Hd]. apply Forall_inv in Hd.
  rewrite sumZ_fmap_snoc, !kmOf_snoc, (IH Hlog).
  destruct Hd as [[Hm _]|[Hm _]]; rewrite Hm;
    repeat case_decide; try done; lia.
Qed.

Lemma log_cost_split log :
  Forall entryPriced log ->
  (sumQ (Dispatch.cost <$> log)
   == COST_OWNED_FIXED * inject_Z (Z.of_nat (length (entriesOf "Owned" log)))
      + COST_OWNED_PER_KM * inject_Z (kmOf "Owned" log)
      + COST_3RD_PARTY_FIXED * inject_Z (Z.of_nat (length (entriesOf "Outsourced" log)))
      + COST_3RD_PARTY_PER_KM * inject_Z (kmOf "Outsourced" log))%Q.
Proof.
  induction log as [|d log IH] using rev_ind; intros Hlog; [reflexivity|].
  apply Forall_app in Hlog as [Hlog Hd]. apply Forall_inv in Hd.
  rewrite sumQ_fmap_snoc, (IH Hlog), !kmOf_snoc, !entriesOf_snoc, !length_app.
  rewrite !Nat2Z.inj_add, !inject_Z_plus.
  destruct Hd as [[Hm Hc]|[Hm Hc]]; rewrite Hm, Hc;
    repeat case_decide; try done; cbn [length];
    change (inject_Z (Z.of_nat 1)) with 1%Q; change (inject_Z (Z.of_nat 0)) with 0%Q;
    change (inject_Z 0) with 0%Q; ring.
Qed.

(** For every list of orders and fleet size, the total cost splits into
    the fixed cost of each vehicle used and the cost per kilometre of the
    distance it drives: [COST_OWNED_FIXED * ownedUsage + COST_OWNED_PER_KM *
    km of the owned entries + COST_3RD_PARTY_FIXED * outsourcedUsage +
    COST_3RD_PARTY_PER_KM * km of the outsourced entries], the two
    distances adding up to [totalKm].  When the fleet covers all orders
    this is the all-owned cost, and with no fleet the all-outsourced one. *)
Theorem totalCost_split (h : list Order.t) (fleetSize : Z) :
  let r := snd (simulate h fleetSize) in
  let n := Z.of_nat (length h) in
  (totalCost r
   == COST_OWNED_FIXED * inject_Z (ownedUsage r)
      + COST_OWNED_PER_KM * inject_Z (kmOf "Owned" (schedule r))
      + COST_3RD_PARTY_FIXED * inject_Z (outsourcedUsage r)
      + COST_3RD_PARTY_PER_KM * inject_Z (kmOf "Outsourced" (schedule r)))%Q /\
  totalKm r = kmOf "Owned" (schedule r) + kmOf "Outsourced" (schedule r) /\
  (n <= fleetSize ->
   (totalCost r == COST_OWNED_FIXED * inject_Z n
                   + COST_OWNED_PER_KM * inject_Z (totalKm r))%Q) /\
  (fleetSize <= 0 ->
   (totalCost r == COST_3RD_PARTY_FIXED * inject_Z n
                   + COST_3RD_PARTY_PER_KM * inject_Z (totalKm r))%Q).
Proof.
  intros r n. subst r n.
  pose proof (allocated_inv h fleetSize) as Hinv.
  assert (Hlog : Forall entryPriced (schedule (snd (simulate h fleetSize)))).
  { rewrite simulate_schedule. apply Forall_lookup. intros k d Hd.
    apply list_lookup_imap_Some in Hd as (o & _ & ->). apply recordAt_priced. }
  assert (Hown : ownedUsage (snd (simulate h fleetSize))
                 = Z.of_nat (length (entriesOf "Owned" (schedule (snd (simulate h fleetSize))))))
    by apply (inv_owned_log _ _ _ _ Hinv).
  assert (Hout : outsourcedUsage (snd (simulate h fleetSize))
                 = Z.of_nat (length (entriesOf "Outsourced" (schedule (snd (simulate h fleetSize))))))
    by apply (inv_outsourced_log _ _ _ _ Hinv).
  assert (Hkm : totalKm (snd (simulate h fleetSize))
                = kmOf "Owned" (schedule (snd (simulate h fleetSize)))
                  + kmOf "Outsourced" (schedule (snd (simulate h fleetSize)))).
  { rewrite simulate_totalKm. by apply log_km_split. }
  assert (Hsplit := log_cost_split _ Hlog). rewrite <- simulate_totalCost in Hsplit.
  rewrite <- Hown, <- Hout in Hsplit.
  split; [exact Hsplit|]. split; [exact Hkm|]. split.
  - intros Hn. rewrite Hsplit, Hkm.
    assert (Hz : outsourcedUsage (snd (simulate h fleetSize)) = 0)
      by (rewrite simulate_outsourcedUsage; unfold ownedAfter; lia).
    assert (Hnil : entriesOf "Outsourced" (schedule (snd (simulate h fleetSize))) = []).
    { apply nil_length_inv. lia. }
    unfold kmOf at 2 4. rewrite Hnil, Hz, simulate_ownedUsage.
    replace (ownedAfter fleetSize (length h)) with (Z.of_nat (length h))
      by (unfold ownedAfter; lia).
    rewrite inject_Z_plus. change (inject_Z (sumZ (Dispatch.distance <$> []))) with 0%Q.
    change (inject_Z 0) with 0%Q. lra.
  - intros Hf. rewrite Hsplit, Hkm.
    assert (Hz : ownedUsage (snd (simulate h fleetSize)) = 0)
      by (rewrite simulate_ownedUsage; unfold ownedAfter; lia).
    assert (Hnil : entriesOf "Owned" (schedule (snd (simulate h fleetSize))) = []).
    { apply nil_length_inv. lia. }
    unfold kmOf at 1 3. rewrite Hnil, Hz, simulate_outsourcedUsage.
    replace (Z.of_nat (length h) - ownedAfter fleetSize (length h)) with (Z.of_nat (length h))
      by (unfold ownedAfter; lia).
    rewrite inject_Z_plus. change (inject_Z (sumZ (Dispatch.distance <$> []))) with 0%Q.
    change (inject_Z 0) with 0%Q. lra.
Qed.

Lemma totalCost_split_witness :
  (Z.of_nat (length scenario) <= 5 /\
   (totalCost (snd (simulate scenario 5))
    == COST_OWNED_FIXED * inject_Z (Z.of_nat (length scenario))
       + COST_OWNED_PER_KM * inject_Z (totalKm (snd (simulate scenario 5))))%Q) /\
  (0 <= 0 /\
   (totalCost (snd (simulate scenario 0))
    == COST_3RD_PARTY_FIXED * inject_Z (Z.of_nat (length scenario))
       + COST_3RD_PARTY_PER_KM * inject_Z (totalKm (snd (simulate scenario 0))))%Q).
Proof.
  split.
  - split; [vm_compute; discriminate|].
    apply (totalCost_split scenario 5). vm_compute; discriminate.
  - split; [lia|]. apply (totalCost_split scenario 0). lia.
Defined.

(** * The dashboard *)

(** ** The Outsourced Orders card *)

(** After a run the card reads "Fleet Capacity Exceeded", in amber,
    exactly when there are orders and more of them than trucks; otherwise,
    and before the first run, it reads "Fully Optimized", in slate. *)
Theorem outsourced_card geo src numOrders fleetSize :
  let result := Some (snd (runSimulation geo src numOrders fleetSize)) in
  (outsourcedSubtext result = "Fleet Capacity Exceeded"%string
   <-> 0 < numOrders /\ fleetSize < numOrders) /\
  (outsourcedSubtext result = "Fully Optimized"%string
   <-> numOrders <= 0 \/ numOrders <= fleetSize) /\
  (outsourcedColor result = "text-amber-600 bg-amber-600"%string
   <-> outsourcedSubtext result = "Fleet Capacity Exceeded"%string) /\
  outsourcedSubtext None = "Fully Optimized"%string /\
  outsourcedColor None = "text-slate-400 bg-slate-400"%string.
Proof.
  intros result. subst result. unfold runSimulation, outsourcedSubtext, outsourcedColor.
  rewrite simulate_outsourcedUsage, generated_length. unfold ownedAfter.
  destruct (0 <? _) eqn:E; [apply Z.ltb_lt in E|apply Z.ltb_ge in E];
    repeat split; try done; try lia; intros; try discriminate; lia.
Qed.

(** ** The Fleet Utilization card *)

Lemma utilization_table :
  forallb (fun fleetSize => forallb (utilizationIs shownPercent fleetSize)
                                    (seqZ 0 (fleetSize + 1)))
          (seqZ 1 50) = true.
Proof. vm_compute. reflexivity. Qed.

Lemma utilizationIs_shown fleetSize owned :
  1 <= fleetSize <= 50 -> 0 <= owned <= fleetSize ->
  utilizationIs shownPercent fleetSize owned = true.
Proof.
  intros Hf Ha. pose proof utilization_table as Ht.
  rewrite forallb_forall in Ht.
  specialize (Ht fleetSize). rewrite <- list_elem_of_In, elem_of_seqZ in Ht.
  specialize (Ht ltac:(lia)). rewrite forallb_forall in Ht.
  apply Ht. rewrite <- list_elem_of_In, elem_of_seqZ. lia.
Qed.

Lemma percentHalfUp_range owned fleetSize :
  0 < fleetSize -> 0 <= owned <= fleetSize ->
  0 <= percentHalfUp owned fleetSize <= 100 /\
  (owned = fleetSize -> percentHalfUp owned fleetSize = 100) /\
  (owned = 0 -> percentHalfUp owned fleetSize = 0).
Proof.
  intros Hf Ha. unfold percentHalfUp.
  assert (H2 : 0 < 2 * fleetSize) by lia.
  pose proof (Z.div_mod (200 * owned + fleetSize) (2 * fleetSize) ltac:(lia)) as Hdm.
  pose proof (Z.mod_pos_bound (200 * owned + fleetSize) (2 * fleetSize) H2) as Hm.
  repeat split; intros; subst; nia.
Qed.

(** For a fleet of 1 to 50 trucks (the slider goes from 5 to 50) and any
    number of orders, the card shows an integer: the percentage of the
    fleet in use, min(fleetSize, orders) out of [fleetSize], rounded half
    up, except that 23 of 40 trucks are shown as 57 (for 57.5): the doubles
    give 57.499999999999993.  It is between 0 and 100, and 100 when there
    are at least as many orders as trucks. *)
Theorem fleetUtilization_shown geo src numOrders fleetSize :
  1 <= fleetSize <= 50 ->
  let result := Some (snd (runSimulation geo src numOrders fleetSize)) in
  let owned := Z.min fleetSize (Z.max 0 numOrders) in
  fleetUtilization result fleetSize = Integer (shownPercent owned fleetSize) /\
  shownPercent owned fleetSize
  = (if bool_decide (numOrders = 23 /\ fleetSize = 40) then 57
     else percentHalfUp owned fleetSize) /\
  0 <= shownPercent owned fleetSize <= 100 /\
  (fleetSize <= numOrders -> fleetUtilization result fleetSize = Integer 100).
Proof.
  intros Hf result owned. subst result.
  assert (Hown : ownedUsage (snd (runSimulation geo src numOrders fleetSize)) = owned).
  { unfold runSimulation. rewrite simulate_ownedUsage, generated_length.
    unfold ownedAfter. subst owned. lia. }
  assert (Ha : 0 <= owned <= fleetSize) by (subst owned; lia).
  assert (Hshown : fleetUtilization (Some (snd (runSimulation geo src numOrders fleetSize)))
                                    fleetSize
                   = Integer (shownPercent owned fleetSize)).
  { unfold fleetUtilization. rewrite Hown.
    pose proof (utilizationIs_shown fleetSize owned Hf Ha) as Hu.
    unfold utilizationIs in Hu.
    destruct (mathRound _) as [z| |]; try discriminate.
    apply Z.eqb_eq in Hu. by rewrite Hu. }
  destruct (percentHalfUp_range owned fleetSize ltac:(lia) Ha) as (Hr & Hfull & _).
  split; [exact Hshown|]. split; [|split].
  - unfold shownPercent. repeat case_bool_decide; try done; subst owned; lia.
  - unfold shownPercent. case_bool_decide; lia.
  - intros Hn. rewrite Hshown. f_equal. unfold shownPercent.
    case_bool_decide; [subst owned; lia|]. apply Hfull. subst owned. lia.
Qed.

Lemma fleetUtilization_shown_witness :
  1 <= 40 <= 50 /\
  fleetUtilization (Some (snd (runSimulation index_tsx sampleDraws 23 40))) 40 = Integer 57 /\
  percentHalfUp 23 40 = 58.
Proof.
  assert (Hf : 1 <= 40 <= 50) by lia.
  destruct (fleetUtilization_shown index_tsx sampleDraws 23 40 Hf) as (Hshown & _).
  split; [exact Hf|]. split; [exact Hshown|]. reflexivity.
Defined.

Lemma mathRound_nan_div_mul (y z : float) :
  mathRound (PrimFloat.mul (PrimFloat.div nan y) z) = NotANumber.
Proof.
  unfold mathRound. rewrite mul_spec, div_spec.
  change (Prim2SF nan) with S754_nan. reflexivity.
Qed.

(** With [fleetSize = 0] the card shows NaN after every run (0 / 0: the
    division is not guarded), and so it does, for every fleet size, before
    the first run. *)
Theorem fleetUtilization_undefined geo src numOrders fleetSize :
  fleetUtilization (Some (snd (runSimulation geo src numOrders 0))) 0 = NotANumber /\
  fleetUtilization None fleetSize = NotANumber.
Proof.
  split.
  - unfold fleetUtilization, runSimulation. rewrite simulate_ownedUsage.
    replace (ownedAfter 0 _) with 0 by (unfold ownedAfter; lia).
    vm_compute. reflexivity.
  - apply mathRound_nan_div_mul.
Qed.

(** ** The dispatch log table *)

Lemma methodBadge_recordAt fleetSize k o :
  methodBadge (recordAt fleetSize k o) = "bg-blue-100 text-blue-700"%string
  <-> Z.of_nat k < fleetSize.
Proof.
  unfold methodBadge, recordAt.
  destruct (Z.of_nat k <? fleetSize) eqn:E;
    [apply Z.ltb_lt in E|apply Z.ltb_ge in E]; cbn [Dispatch.method];
    case_bool_decide; try done; split; intros; try done; lia.
Qed.

(** The table shows the first [limit] entries of the log (15 in
    [index.tsx], 10 in [YunfengDashboard.tsx]), or all of them when there
    are fewer, in dispatch order; the row at position [k] has the blue
    badge of an owned vehicle exactly when [k < fleetSize].  So with at
    least [limit] trucks no outsourced order is on display, even when the
    Outsourced Orders card reads "Fleet Capacity Exceeded". *)
Theorem dispatch_table geo src numOrders fleetSize (limit : nat) :
  let run := runSimulation geo src numOrders fleetSize in
  let rows := scheduleRows limit (Some (snd run)) in
  length rows = Nat.min limit (Z.to_nat numOrders) /\
  Dispatch.orderId <$> rows = Order.id <$> take limit (fst run) /\
  (forall (k : nat) row, rows !! k = Some row ->
     (methodBadge row = "bg-blue-100 text-blue-700"%string <-> Z.of_nat k < fleetSize) /\
     (methodBadge row = "bg-amber-100 text-amber-700"%string <-> fleetSize <= Z.of_nat k)) /\
  (Z.of_nat limit <= fleetSize ->
     Forall (fun row => Dispatch.method row = "Owned"%string) rows /\
     (fleetSize < numOrders ->
      outsourcedSubtext (Some (snd run)) = "Fleet Capacity Exceeded"%string /\
      0 < outsourcedUsage (snd run))) /\
  scheduleRows limit None = [].
Proof.
  intros run rows. subst run rows. unfold runSimulation, scheduleRows.
  set (h := generated geo src numOrders).
  assert (Hlen : length h = Z.to_nat numOrders) by apply generated_length.
  split; [|split; [|split; [|split]]].
  - by rewrite length_take, simulate_schedule_length, Hlen.
  - by rewrite !fmap_take, simulate_schedule_ids, simulate_order_ids.
  - intros k row Hrow. apply lookup_take_Some in Hrow as [Hrow Hk].
    rewrite simulate_schedule in Hrow.
    apply list_lookup_imap_Some in Hrow as (o & _ & ->).
    unfold methodBadge, recordAt.
    destruct (Z.of_nat k <? fleetSize) eqn:E;
      [apply Z.ltb_lt in E|apply Z.ltb_ge in E]; cbn [Dispatch.method];
      case_bool_decide; try done; split; split; intros; try done; lia.
  - intros Hlim. split.
    + apply Forall_lookup. intros k row Hrow.
      apply lookup_take_Some in Hrow as [Hrow Hk].
      rewrite simulate_schedule in Hrow.
      apply list_lookup_imap_Some in Hrow as (o & _ & ->).
      unfold recordAt. destruct (Z.of_nat k <? fleetSize) eqn:E; [done|].
      apply Z.ltb_ge in E. lia.
    + intros Hn. unfold outsourcedSubtext.
      rewrite simulate_outsourcedUsage, Hlen. unfold ownedAfter.
      destruct (0 <? _) eqn:E; [apply Z.ltb_lt in E|apply Z.ltb_ge in E];
        split; try done; lia.
  - done.
Qed.

Lemma dispatch_table_witness :
  let run := runSimulation index_tsx sampleDraws 84 30 in
  let rows := scheduleRows 15 (Some (snd run)) in
  Z.of_nat 15 <= 30 /\ 30 < 84 /\
  Forall (fun row => Dispatch.method row = "Owned"%string) rows /\
  outsourcedSubtext (Some (snd run)) = "Fleet Capacity Exceeded"%string /\
  0 < outsourcedUsage (snd run).
Proof.
  intros run rows.
  destruct (dispatch_table index_tsx sampleDraws 84 30 15) as (_ & _ & _ & H & _).
  assert (H1 : Z.of_nat 15 <= 30) by lia. assert (H2 : 30 < 84) by lia.
  destruct (H H1) as [Hrows Hcard]. destruct (Hcard H2) as [Htext Hout].
  split; [exact H1|]. split; [exact H2|]. split; [exact Hrows|].
  split; [exact Htext|exact Hout].
Defined.

(** ** The map *)

Lemma filter_length_Forall2 {A B} (P : A -> Prop) (Q : B -> Prop)
    `{!forall a, Decision (P a)} `{!forall b, Decision (Q b)} (l : list A) (k : list B) :
  Forall2 (fun a b => P a <-> Q b) l k ->
  length (filter P l) = length (filter Q k).
Proof.
  induction 1 as [|a b l k Hab _ IH]; [done|].
  rewrite !filter_cons. destruct (decide (P a)), (decide (Q b)); simpl; tauto || lia.
Qed.

Lemma statusColor_statusAt fleetSize k o :
  statusColor (Order.setStatus (statusAt fleetSize k) o)
  = if Z.of_nat k <? fleetSize then "#3b82f6"%string else "#f59e0b"%string.
Proof. unfold statusColor, statusAt. by destruct (Z.of_nat k <? fleetSize). Qed.

(** The map draws one circle and one line per order, in dispatch order.
    The circle and the line of an order are blue exactly when its entry in
    the schedule log is an owned one, and amber exactly when it is an
    outsourced one (no order is left pending); so the map has [ownedUsage]
    blue circles and [outsourcedUsage] amber ones. *)
Theorem map_markers geo src numOrders fleetSize :
  let run := runSimulation geo src numOrders fleetSize in
  let markers := orderMarkers (fst run) in
  let routes := orderRoutes geo (fst run) in
  length markers = Z.to_nat numOrders /\
  Route.stroke <$> routes = Marker.fill <$> markers /\
  Marker.key <$> markers = Dispatch.orderId <$> schedule (snd run) /\
  Forall2 (fun m d =>
             (Marker.fill m = "#3b82f6"%string <-> Dispatch.method d = "Owned"%string) /\
             (Marker.fill m = "#f59e0b"%string <-> Dispatch.method d = "Outsourced"%string))
          markers (schedule (snd run)) /\
  Z.of_nat (length (filter (fun m => Marker.fill m = "#3b82f6"%string) markers))
  = ownedUsage (snd run) /\
  Z.of_nat (length (filter (fun m => Marker.fill m = "#f59e0b"%string) markers))
  = outsourcedUsage (snd run).
Proof.
  intros run markers routes. subst run markers routes. unfold runSimulation.
  set (h := generated geo src numOrders).
  pose proof (allocated_inv h fleetSize) as Hinv.
  assert (Hpair :
    Forall2 (fun m d =>
               (Marker.fill m = "#3b82f6"%string <-> Dispatch.method d = "Owned"%string) /\
               (Marker.fill m = "#f59e0b"%string
                <-> Dispatch.method d = "Outsourced"%string))
            (orderMarkers (fst (simulate h fleetSize)))
            (schedule (snd (simulate h fleetSize)))).
  { unfold orderMarkers. rewrite simulate_orders, simulate_schedule.
    apply Forall2_same_length_lookup_2.
    - by rewrite length_fmap, !length_imap.
    - intros k m d Hm Hd. rewrite list_lookup_fmap, list_lookup_imap in Hm.
      apply list_lookup_imap_Some in Hd as (o & Ho & ->). rewrite Ho in Hm.
      simpl in Hm. injection Hm as <-. cbn [Marker.fill].
      rewrite statusColor_statusAt. unfold recordAt.
      destruct (Z.of_nat k <? fleetSize); cbn [Dispatch.method]; split; split; done. }
  split; [|split; [|split; [|split; [|split]]]].
  - unfold orderMarkers.
    rewrite length_fmap, simulate_orders_length. apply generated_length.
  - unfold orderRoutes, orderMarkers. by rewrite <- !list_fmap_compose.
  - unfold orderMarkers. rewrite <- list_fmap_compose.
    change (Order.id <$> fst (simulate h fleetSize)
            = Dispatch.orderId <$> schedule (snd (simulate h fleetSize))).
    by rewrite simulate_order_ids, simulate_schedule_ids.
  - exact Hpair.
  - transitivity (Z.of_nat (length (filter (fun d => Dispatch.method d = "Owned"%string)
                                           (schedule (snd (simulate h fleetSize)))))).
    + f_equal. apply filter_length_Forall2.
      eapply Forall2_impl; [exact Hpair|]. by intros m d [H1 _].
    + symmetry. apply (inv_owned_log _ _ _ _ Hinv).
  - transitivity (Z.of_nat (length (filter (fun d => Dispatch.method d = "Outsourced"%string)
                                           (schedule (snd (simulate h fleetSize)))))).
    + f_equal. apply filter_length_Forall2.
      eapply Forall2_impl; [exact Hpair|]. by intros m d [_ H2].
    + symmetry. apply (inv_outsourced_log _ _ _ _ Hinv).
Qed.

(** * Priority and determinacy of the dispatch *)

Lemma statusAt_Assigned fleetSize k :
  statusAt fleetSize k = Assigned <-> Z.of_nat k < fleetSize.
Proof.
  unfold statusAt. destruct (Z.of_nat k <? fleetSize) eqn:E;
    [apply Z.ltb_lt in E|apply Z.ltb_ge in E]; split; intros; try done; lia.
Qed.

Lemma statusAt_Outsourced fleetSize k :
  statusAt fleetSize k = Outsourced <-> fleetSize <= Z.of_nat k.
Proof.
  unfold statusAt. destruct (Z.of_nat k <? fleetSize) eqn:E;
    [apply Z.ltb_lt in E|apply Z.ltb_ge in E]; split; intros; try done; lia.
Qed.

(** The owned vehicles go to the orders with priority: whenever one order
    of a run is assigned and another is outsourced, the outsourced one is
    not the more urgent of the two, and if they are equally urgent it is
    not the farther one. *)
Theorem owned_vehicles_by_priority (h : list Order.t) (fleetSize : Z) (a b : Order.t) :
  a ∈ fst (simulate h fleetSize) -> b ∈ fst (simulate h fleetSize) ->
  Order.status a = Assigned -> Order.status b = Outsourced ->
  ~ (Order.urgency a = Normal /\ Order.urgency b = Urgent) /\
  (Order.urgency a = Order.urgency b -> Order.distance b <= Order.distance a).
Proof.
  rewrite simulate_orders. intros Ha Hb Hsa Hsb.
  apply list_elem_of_lookup_1 in Ha as [i Hi]. apply list_elem_of_lookup_1 in Hb as [j Hj].
  apply list_lookup_imap_Some in Hi as (oa & Hoa & ->).
  apply list_lookup_imap_Some in Hj as (ob & Hob & ->).
  cbn [Order.setStatus Order.status Order.urgency Order.distance] in *.
  apply statusAt_Assigned in Hsa. apply statusAt_Outsourced in Hsb.
  rewrite dispatchSequence_sort in Hoa, Hob.
  pose proof (sort_sorted compareOrders compareOrders_total compareOrders_trans h) as Hs.
  assert (Hij : (i < j)%nat) by lia.
  pose proof (StronglySorted_lookup _ _ _ _ _ _ Hs Hij Hoa Hob) as Hab.
  unfold notAfter in Hab. apply compareOrders_le in Hab.
  destruct Hab as [[Hu Hn]|[Hu Hd]];
    (split; [intros [H1 H2]; congruence | intros He; first [exact Hd | congruence]]).
Qed.

Lemma owned_vehicles_by_priority_witness :
  let orders := fst (simulate scenario 2) in
  let a := Order.setStatus Assigned (scenarioOrder 4 Urgent 60) in
  let b := Order.setStatus Outsourced (scenarioOrder 2 Normal 30) in
  a ∈ orders /\ b ∈ orders /\ Order.status a = Assigned /\ Order.status b = Outsourced /\
  ~ (Order.urgency a = Normal /\ Order.urgency b = Urgent) /\
  (Order.urgency a = Order.urgency b -> Order.distance b <= Order.distance a).
Proof.
  intros orders a b.
  assert (Ha : a ∈ orders).
  { apply (list_elem_of_lookup_2 _ 1%nat). vm_compute. reflexivity. }
  assert (Hb : b ∈ orders).
  { apply (list_elem_of_lookup_2 _ 2%nat). vm_compute. reflexivity. }
  split; [exact Ha|]. split; [exact Hb|]. split; [reflexivity|]. split; [reflexivity|].
  apply (owned_vehicles_by_priority scenario 2 a b Ha Hb); reflexivity.
Defined.

(** The dispatch sequence is determined by the urgencies and distances of
    the orders and by the order in which they were generated: it is the
    only arrangement that the comparator accepts as sorted and in which the
    orders of one urgency and one distance keep their generation order. *)
Theorem dispatchSequence_unique (h l : list Order.t) :
  StronglySorted (notAfter compareOrders) l ->
  (forall u d,
     filter (fun o => Order.urgency o = u /\ Order.distance o = d) l
     = filter (fun o => Order.urgency o = u /\ Order.distance o = d) h) ->
  l = dispatchSequence h.
Proof.
  intros Hs Hf. rewrite dispatchSequence_sort.
  apply (sort_unique compareOrders compareOrders_total compareOrders_trans); [done|].
  intros a.
  rewrite (list_filter_iff (tie compareOrders a)
             (fun o => Order.urgency o = Order.urgency a /\
                       Order.distance o = Order.distance a) l).
  2: { intros o. rewrite compareOrders_tie. intuition congruence. }
  rewrite (list_filter_iff (tie compareOrders a)
             (fun o => Order.urgency o = Order.urgency a /\
                       Order.distance o = Order.distance a) h).
  2: { intros o. rewrite compareOrders_tie. intuition congruence. }
  apply Hf.
Qed.

Lemma dispatchSequence_unique_witness :
  let l := [scenarioOrder 1 Urgent 80; scenarioOrder 4 Urgent 60; scenarioOrder 2 Normal 30;
            scenarioOrder 0 Normal 10; scenarioOrder 3 Normal 5] in
  StronglySorted (notAfter compareOrders) l /\ l = dispatchSequence scenario.
Proof.
  intros l.
  assert (Hs : StronglySorted (notAfter compareOrders) l).
  { repeat (constructor; [|repeat (constructor; [vm_compute; discriminate|]); constructor]).
    constructor. }
  split; [exact Hs|].
  apply (dispatchSequence_unique scenario l Hs).
  intros u d. change l with (sort compareOrders scenario).
  apply sort_filter. intros x y [Hx1 Hx2] [Hy1 Hy2].
  apply compareOrders_le. right. split; [congruence|lia].
Defined.
